(** * fp-toolkit: comparers, nullable helpers, deferred values and non-empty arrays

    A shallow embedding of the TypeScript sources

      - [src/NonEmptyArray/NonEmptyArray.ts]
      - [Nullable.ts] and [Deferred.ts]

    together with the comparer algebra ([EqualityComparer], [OrderingComparer])
    whose own source files are not part of the sources at hand: only their
    unit tests and their callers are.  The combinators of that algebra are
    therefore modelled from the written specification, and every such
    definition says so in its documentation.

    Conventions of the embedding:

      - the result of a three-way comparison is an integer ([Z]); only its
        sign is significant;
      - a JavaScript array is a [list]; arrays that are shared and mutated in
        place live in a store ([gmap] from references to lists);
      - [null] and [undefined] are two distinct constructors of [Nullable.t];
      - a callback whose invocations matter is run in a small writer monad
        that logs the arguments of every call. *)

From Stdlib Require Import ZArith QArith Qround Qcanon Lia.
From stdpp Require Import gmap strings list sorting.

Close Scope Qc_scope.
Close Scope Q_scope.
Open Scope Z_scope.

(** ** EqualityComparer *)

Module EqualityComparer.

(** Modelled from the spec: [EqualityComparer.ts] is missing; the spec
    describes the type as an immutable value object holding one operation,
    [equals(a, b) -> bool]. *)
Record t (A : Type) : Type := ofEquals { equals : A → A → bool }.

Arguments ofEquals {A} _.
Arguments equals {A} _ _ _.

End EqualityComparer.

(** ** OrderingComparer *)

Module OrderingComparer.

(** Modelled from the spec: [OrderingComparer.ts] is missing; the spec
    describes the type as an immutable value object holding one operation,
    [compare(a, b)], whose result is used only by sign. *)
Record t (A : Type) : Type := ofCompare { compare : A → A → Z }.

Arguments ofCompare {A} _.
Arguments compare {A} _ _ _.

(** Modelled from the spec: [reverse(oc)] returns a new comparer with
    [compare(a,b) = -oc.compare(a,b)]. *)
Definition reverse {A} (oc : t A) : t A :=
  ofCompare (λ a b, - compare oc a b).

(** Modelled from the spec: [deriveFrom(innerComparer, keyFn)] projects each
    value through [keyFn] and delegates to [innerComparer] on the keys. *)
Definition deriveFrom {A B} (innerComparer : t B) (keyFn : A → B) : t A :=
  ofCompare (λ a b, compare innerComparer (keyFn a) (keyFn b)).

(** Modelled from the spec: [getComposite(c1, ..., cN)] evaluates
    [c1.compare(a,b)]; if nonzero, returns it; otherwise evaluates [c2], and
    so on; if all [N] comparers return zero, the composite returns zero. *)
Fixpoint compositeCompare {A} (cs : list (t A)) (a b : A) : Z :=
  match cs with
  | [] => 0
  | c :: rest =>
      let r := compare c a b in
      if r =? 0 then compositeCompare rest a b else r
  end.

Definition getComposite {A} (cs : list (t A)) : t A :=
  ofCompare (compositeCompare cs).

(** Modelled from the spec: the relational predicates are derived purely from
    the sign of [compare]. *)
Definition gt {A} (oc : t A) (a b : A) : bool := 0 <? compare oc a b.
Definition geq {A} (oc : t A) (a b : A) : bool := 0 <=? compare oc a b.
Definition lt {A} (oc : t A) (a b : A) : bool := compare oc a b <? 0.
Definition leq {A} (oc : t A) (a b : A) : bool := compare oc a b <=? 0.

(** Modelled from the spec: [isBetween(oc)(lower, upper)(test)] is the
    inclusive range test with the same comparer for both bounds. *)
Definition isBetween {A} (oc : t A) (lower upper test : A) : bool :=
  leq oc lower test && leq oc test upper.

(** Modelled from the spec: [deriveEqualityComparer(oc)] has
    [equals(a,b) = (oc.compare(a,b) == 0)]. *)
Definition deriveEqualityComparer {A} (oc : t A) : EqualityComparer.t A :=
  EqualityComparer.ofEquals (λ a b, compare oc a b =? 0).

(** Modelled from the spec: the canonical numeric instance wraps the native
    ascending order of numbers.  The numbers of the examples are integers. *)
Definition Number : t Z :=
  ofCompare (λ a b, if a =? b then 0 else if a <? b then -1 else 1).

Definition ofComparison (c : comparison) : Z :=
  match c with Eq => 0 | Lt => -1 | Gt => 1 end.

(** Modelled from the spec: the canonical string instance wraps the native
    lexicographic ascending order of strings. *)
Definition String : t string :=
  ofCompare (λ a b, ofComparison (String.compare a b)).

(** *** The order laws of the spec's data model *)

(** [compare(x,x) == 0] *)
Definition ReflexiveLaw {A} (oc : t A) : Prop :=
  ∀ x, compare oc x x = 0.

(** [sign(compare(a,b)) == -sign(compare(b,a))] *)
Definition AntisymmetricLaw {A} (oc : t A) : Prop :=
  ∀ a b, Z.sgn (compare oc a b) = - Z.sgn (compare oc b a).

(** Transitivity of the induced order [a <= b  iff  compare(a,b) <= 0]. *)
Definition TransitiveLaw {A} (oc : t A) : Prop :=
  ∀ a b c, leq oc a b = true → leq oc b c = true → leq oc a c = true.

(** The induced order as a relation. *)
Definition le {A} (oc : t A) (a b : A) : Prop := compare oc a b ≤ 0.

Record Lawful {A} (oc : t A) : Prop := mkLawful {
  lawful_refl : ReflexiveLaw oc;
  lawful_antisym : AntisymmetricLaw oc;
  lawful_trans : TransitiveLaw oc;
}.

(** The comparers obtained from a family [base] of given comparers by the
    combinators of the module, nested in any way. *)
Inductive Derived (base : ∀ A, t A → Prop) : ∀ A, t A → Prop :=
| derived_base A (oc : t A) :
    base A oc → Derived base A oc
| derived_reverse A (oc : t A) :
    Derived base A oc → Derived base A (reverse oc)
| derived_deriveFrom A B (inner : t B) (keyFn : A → B) :
    Derived base B inner → Derived base A (deriveFrom inner keyFn)
| derived_getComposite A (cs : list (t A)) :
    (∀ c, c ∈ cs → Derived base A c) → Derived base A (getComposite cs).

End OrderingComparer.

(** ** Logged callbacks

    A computation of type [Calls.t C X] yields a value of type [X] and the
    list of the arguments with which it invoked its callback, in call order.
    It makes "the callback is not invoked" and "the loop stops at the first
    mismatch" statements about the embedding. *)

Module Calls.

Definition t (C X : Type) : Type := (list C * X)%type.

Definition ret {C X} (x : X) : t C X := ([], x).

Definition call {C X} (f : C → X) (c : C) : t C X := ([c], f c).

Definition bind {C X Y} (m : t C X) (k : X → t C Y) : t C Y :=
  let '(l1, x) := m in
  let '(l2, y) := k x in
  (l1 ++ l2, y).

Definition log {C X} (m : t C X) : list C := fst m.
Definition result {C X} (m : t C X) : X := snd m.

End Calls.

(** ** The host: JavaScript numbers and arrays *)

Module JS.

(** A JavaScript [number]: the special values and the finite ones.  A finite
    value is a rational; the IEEE 754 doubles of the host are among them, and
    the arithmetic below rounds its result to the nearest double as the host
    does. *)
Inductive number : Type :=
| NaN
| NegInfinity
| Finite (q : Q)
| PosInfinity.

(** [Math.floor] *)
Definition floor (n : number) : number :=
  match n with
  | Finite q => Finite (inject_Z (Qfloor q))
  | _ => n
  end.

(** [a <= b]: every comparison with [NaN] is false. *)
Definition leb (a b : number) : bool :=
  match a, b with
  | NaN, _ | _, NaN => false
  | NegInfinity, _ => true
  | _, PosInfinity => true
  | Finite p, Finite q => Qle_bool p q
  | PosInfinity, _ => false
  | Finite _, NegInfinity => false
  end.

(** [a >= b] *)
Definition geb (a b : number) : bool := leb b a.

(** The binary exponent of the positive rational [n / d]: the [e] with
    [2 ^ e <= n / d < 2 ^ (e + 1)]. *)
Definition ilog2 (n d : Z) : Z :=
  let e := Z.log2 n - Z.log2 d in
  if (if 0 <=? e then d * 2 ^ e <=? n else d <=? n * 2 ^ (- e))
  then e else e - 1.

(** The double nearest to the positive rational [n / d], ties to the even
    significand.  Around a number of binary exponent [e] the doubles are
    [2 ^ s] apart, for [s = max (e - 52) (-1074)]; [n / d] is rounded to a
    multiple [m * 2 ^ s] of that spacing, and what lies beyond the largest
    double is rounded to [Infinity]. *)
Definition roundPos (n d : Z) : number :=
  let s := Z.max (ilog2 n d - 52) (-1074) in
  let N := if 0 <=? s then n else n * 2 ^ (- s) in
  let D := if 0 <=? s then d * 2 ^ s else d in
  let f := N / D in
  let m := match 2 * (N mod D) ?= D with
           | Lt => f
           | Gt => f + 1
           | Eq => if Z.even f then f else f + 1
           end in
  if 0 <=? s then
    if 2 ^ 1024 <=? m * 2 ^ s then PosInfinity
    else Finite (inject_Z (m * 2 ^ s))
  else Finite (Qred (Qmake m (Z.to_pos (2 ^ (- s))))).

(** [-n] *)
Definition opp (n : number) : number :=
  match n with
  | NaN => NaN
  | NegInfinity => PosInfinity
  | Finite q => Finite (Qopp q)
  | PosInfinity => NegInfinity
  end.

(** The double nearest to a rational: the rounding of every arithmetic
    result of the host. *)
Definition roundToDouble (x : Q) : number :=
  match Qnum x with
  | 0 => Finite (inject_Z 0)
  | Z.pos n => roundPos (Z.pos n) (Z.pos (Qden x))
  | Z.neg n => opp (roundPos (Z.pos n) (Z.pos (Qden x)))
  end.

(** [i++]: the sum [i + 1], rounded.  An integer [i] with
    [-2^53 <= i < 2^53] has the exact successor; from [2^53] on the
    successor need not be a double, and the sum is rounded to a neighbour,
    which may be [i] itself. *)
Definition incr (i : number) : number :=
  match i with
  | Finite q => roundToDouble (Qplus q 1)
  | _ => i
  end.

Definition ofZ (z : Z) : number := Finite (inject_Z z).

(** Which values of an embedded type are [null] or [undefined]: what the
    host's test [x != null] asks of a value.  Booleans and numbers never
    are. *)
Class Nullish (R : Type) : Type := isNullish : R → bool.

#[global] Instance Nullish_bool : Nullish bool := λ _, false.
#[global] Instance Nullish_Z : Nullish Z := λ _, false.
#[global] Instance Nullish_number : Nullish number := λ _, false.

(** The order in which [Array.prototype.sort(comparefn)] leaves the elements.
    The built-in is specified by ECMAScript, not by this repository: the sort
    is stable, [comparefn(x, y) <= 0] keeps [x] before [y], and for a
    consistent comparator the result is the sorted permutation of the input.
    A stable insertion sort realises that specification. *)
Fixpoint insertSorted {A} (comparefn : A → A → Z) (x : A) (l : list A) : list A :=
  match l with
  | [] => [x]
  | y :: l' =>
      if comparefn x y <=? 0 then x :: y :: l'
      else y :: insertSorted comparefn x l'
  end.

Fixpoint sortList {A} (comparefn : A → A → Z) (l : list A) : list A :=
  match l with
  | [] => []
  | x :: l' => insertSorted comparefn x (sortList comparefn l')
  end.

(** [Array.prototype.sort] on any array: the elements that are [undefined]
    are put last without a call of [comparefn], and only the others are
    ordered, as by [sortList].  [isUndefined] tells which values of the
    element type are [undefined]; on an array that holds none, this is
    [sortList]. *)
Definition sortArray {A} (isUndefined : A → bool) (comparefn : A → A → Z)
    (l : list A) : list A :=
  sortList comparefn (filter (λ x, isUndefined x = false) l)
  ++ filter (λ x, isUndefined x = true) l.

(** Arrays are objects: a program holds references to them, and the built-ins
    [reverse] and [sort] update the referenced array in place.  A store maps
    references to the current contents of the arrays; a computation threads
    the store and fails on a reference that the store does not hold. *)
Abbreviation ref := positive.

Definition M (A X : Type) : Type :=
  gmap positive (list A) → option (X * gmap positive (list A)).

Definition ret {A X} (x : X) : M A X := λ h, Some (x, h).

Definition bind {A X Y} (m : M A X) (k : X → M A Y) : M A Y :=
  λ h, match m h with
       | Some (x, h') => k x h'
       | None => None
       end.

(** [arr.slice(0)]: a new array with the elements of [arr]. *)
Definition slice0 {A} (arr : ref) : M A ref :=
  λ h, match h !! arr with
       | Some xs => let r := fresh (dom h) in Some (r, <[r := xs]> h)
       | None => None
       end.

(** [arr.reverse()]: reverses [arr] in place and returns [arr]. *)
Definition reverse {A} (arr : ref) : M A ref :=
  λ h, match h !! arr with
       | Some xs => Some (arr, <[arr := rev xs]> h)
       | None => None
       end.

(** [arr.sort(comparefn)]: sorts [arr] in place and returns [arr].  The
    elements stand for values other than [undefined], which are all that
    [comparefn] is asked about. *)
Definition sort {A} (comparefn : A → A → Z) (arr : ref) : M A ref :=
  λ h, match h !! arr with
       | Some xs => Some (arr, <[arr := sortList comparefn xs]> h)
       | None => None
       end.

(** [[...Array(n).keys()]]: [Array(n)] throws a RangeError unless [n] is an
    integer from [0] to [2^32 - 1]; the keys of the array of [n] holes are
    [0, ..., n - 1].  [None] is the RangeError. *)
Definition arrayKeys (n : number) : option (list number) :=
  match n with
  | Finite q =>
      if Qeq_bool q (inject_Z (Qfloor q)) && (0 <=? Qfloor q)
         && (Qfloor q <? 2 ^ 32)
      then Some (ofZ <$> seqZ 0 (Qfloor q))
      else None
  | _ => None
  end.

End JS.

(** ** Nullable *)

Module Nullable.

(** [Nullable<A> = A | null | undefined], with [A] non-nullish. *)
Inductive t (A : Type) : Type :=
| null
| undefined
| value (a : A).

Arguments null {A}.
Arguments undefined {A}.
Arguments value {A} _.

(** [a == null]: loose equality holds for [null] and for [undefined]. *)
Definition isNullish {A} (a : t A) : bool :=
  match a with
  | value _ => false
  | _ => true
  end.

#[global] Instance Nullish_Nullable {A} : JS.Nullish (t A) := isNullish.

(** [getEqualityComparer]:
    [(a1 == null && a2 == null) ||
     (a1 != null && a2 != null && equalityComparer.equals(a1, a2))].
    The [match] is the narrowing of [a1] and [a2] to [A] that the two tests
    [!= null] license. *)
Definition getEqualityComparer {A} (equalityComparer : EqualityComparer.t A)
  : EqualityComparer.t (t A) :=
  EqualityComparer.ofEquals (λ a1 a2,
    (isNullish a1 && isNullish a2) ||
    (negb (isNullish a1) && negb (isNullish a2) &&
     match a1, a2 with
     | value x1, value x2 => EqualityComparer.equals equalityComparer x1 x2
     | _, _ => false
     end)).

(** A call of the comparer of [getEqualityComparer(equalityComparer)] in
    which the argument of [getEqualityComparer] may have been omitted
    ([None]).  The parameter has no default: where both values are present,
    the comparer reads [equalityComparer.equals] of [undefined], which
    throws a TypeError ([None]). *)
Definition getEqualityComparerCall {A}
    (equalityComparer : option (EqualityComparer.t A)) (a1 a2 : t A)
  : option bool :=
  if isNullish a1 && isNullish a2 then Some true
  else match a1, a2 with
       | value x1, value x2 =>
           match equalityComparer with
           | Some ec => Some (EqualityComparer.equals ec x1 x2)
           | None => None
           end
       | _, _ => Some false
       end.

(** [defaultValue]: [nullable != null ? nullable : a] *)
Definition defaultValue {A} (a : A) (nullable : t A) : A :=
  match nullable with
  | value x => x
  | _ => a
  end.

(** [map]: [nullable != null ? f(nullable) : nullable].  The nullish branch
    returns the argument itself, at the result type. *)
Definition map {A B} (f : A → B) (nullable : t A) : Calls.t A (t B) :=
  match nullable with
  | value a => Calls.bind (Calls.call f a) (λ b, Calls.ret (value b))
  | null => Calls.ret null
  | undefined => Calls.ret undefined
  end.

(** [iter]: [if (nullable != null) { f(nullable) }] *)
Definition iter {A} (f : A → unit) (nullable : t A) : Calls.t A unit :=
  match nullable with
  | value a => Calls.call f a
  | _ => Calls.ret tt
  end.

(** [bind]: [nullable != null ? f(nullable) : nullable] *)
Definition bind {A B} (f : A → t B) (nullable : t A) : Calls.t A (t B) :=
  match nullable with
  | value a => Calls.call f a
  | null => Calls.ret null
  | undefined => Calls.ret undefined
  end.

(** [defaultWith]: [nullable != null ? nullable : f()].  The calls of the
    thunk [f] are logged. *)
Definition defaultWith {A} (f : unit → A) (nullable : t A) : Calls.t unit A :=
  match nullable with
  | value x => Calls.ret x
  | _ => Calls.call f tt
  end.

(** [flatMap]: alias of [bind]. *)
Definition flatMap {A B} : (A → t B) → t A → Calls.t A (t B) := bind.

End Nullable.

(** ** Deferred *)

Module Deferred.

(** [Deferred<A> = NotStarted | InProgress | Resolved<A>] *)
Inductive t (A : Type) : Type :=
| NotStarted
| InProgress
| Resolved (resolved : A).

Arguments NotStarted {A}.
Arguments InProgress {A}.
Arguments Resolved {A} _.

(** [FuncOrValue<T> = Func<T> | T]; [X] is the type of the arguments that a
    function of the case is given. *)
Inductive FuncOrValue (X R : Type) : Type :=
| Func (f : X → R)
| Value (v : R).

Arguments Func {X R} _.
Arguments Value {X R} _.

(** [resultOrValue]: [isFunc(f) ? f(...args) : f] *)
Definition resultOrValue {X R} (f : FuncOrValue X R) (args : X) : R :=
  match f with
  | Func g => g args
  | Value v => v
  end.

(** [PartialDeferredMatcher]: every case but [orElse] may be absent; a case
    that the matcher has is a function or a constant of [R], which may be a
    [null] or [undefined] one where [R] has such values. *)
Record PartialDeferredMatcher (A R : Type) : Type := {
  notStarted : option (FuncOrValue unit R);
  inProgress : option (FuncOrValue unit R);
  resolved : option (FuncOrValue A R);
  orElse : FuncOrValue unit R;
}.

Arguments notStarted {A R} _.
Arguments inProgress {A R} _.
Arguments resolved {A R} _.
Arguments orElse {A R} _.

(** [matcher.x != null]: the test passes when the matcher has the case and
    the case is not a constant that is [null] or [undefined]; a function
    never is.  The result is the case with which the match goes on, if the
    test passes. *)
Definition present {X R} `{JS.Nullish R} (c : option (FuncOrValue X R))
  : option (FuncOrValue X R) :=
  match c with
  | Some (Value v) => if JS.isNullish v then None else c
  | _ => c
  end.

Definition matchOrElse {A R} `{JS.Nullish R}
    (matcher : PartialDeferredMatcher A R) (deferred : t A) : R :=
  match deferred with
  | NotStarted =>
      resultOrValue
        (match present (notStarted matcher) with
         | Some m => m
         | None => orElse matcher
         end) tt
  | InProgress =>
      resultOrValue
        (match present (inProgress matcher) with
         | Some m => m
         | None => orElse matcher
         end) tt
  | Resolved a =>
      match present (resolved matcher) with
      | Some m => resultOrValue m a
      | None => resultOrValue (orElse matcher) tt
      end
  end.

Definition isUnresolved {A} : t A → bool :=
  matchOrElse {| notStarted := None; inProgress := None;
                 resolved := Some (Value false); orElse := Value true |}.

Definition isResolved {A} (deferred : t A) : bool :=
  matchOrElse {| notStarted := None; inProgress := None;
                 resolved := Some (Value true); orElse := Value false |}
    deferred.

Section isResolvedWith.

(** [EqualityComparer.Default] is declared in the missing
    [EqualityComparer.ts]; it is a parameter here. *)
Context {A : Type} (Default : EqualityComparer.t A).

(** [isResolvedWith(expected, equalityComparer = EqualityComparer.Default)]:
    an omitted (or [undefined]) second argument is [None]. *)
Definition isResolvedWith (expected : A)
    (equalityComparer : option (EqualityComparer.t A)) : t A → bool :=
  let equalityComparer := default Default equalityComparer in
  matchOrElse {|
    notStarted := None;
    inProgress := None;
    resolved := Some (Func (λ actual,
      EqualityComparer.equals equalityComparer actual expected));
    orElse := Value false;
  |}.

End isResolvedWith.

(** [DeferredMatcher]: every case is present. *)
Module Exhaustive.

Record DeferredMatcher (A R : Type) : Type := {
  notStarted : FuncOrValue unit R;
  inProgress : FuncOrValue unit R;
  resolved : FuncOrValue A R;
}.

Arguments notStarted {A R} _.
Arguments inProgress {A R} _.
Arguments resolved {A R} _.

End Exhaustive.

(** [match]: the exhaustive pattern match. *)
Definition match_ {A R} (matcher : Exhaustive.DeferredMatcher A R)
    (deferred : t A) : R :=
  match deferred with
  | NotStarted => resultOrValue (Exhaustive.notStarted matcher) tt
  | InProgress => resultOrValue (Exhaustive.inProgress matcher) tt
  | Resolved a => resultOrValue (Exhaustive.resolved matcher) a
  end.

(** The constant of the case of a state, where that case is a constant. *)
Definition caseConstant {A R} (matcher : Exhaustive.DeferredMatcher A R)
    (deferred : t A) : option R :=
  match deferred with
  | NotStarted =>
      match Exhaustive.notStarted matcher with
      | Value v => Some v
      | Func _ => None
      end
  | InProgress =>
      match Exhaustive.inProgress matcher with
      | Value v => Some v
      | Func _ => None
      end
  | Resolved _ =>
      match Exhaustive.resolved matcher with
      | Value v => Some v
      | Func _ => None
      end
  end.

(** [isInProgress]: [matchOrElse({ inProgress: true, orElse: false })] *)
Definition isInProgress {A} (deferred : t A) : bool :=
  matchOrElse {| notStarted := None; inProgress := Some (Value true);
                 resolved := None; orElse := Value false |}
    deferred.

End Deferred.

(** ** NonEmptyArray *)

Module NonEmptyArray.

(** [NonEmptyArray<A>] is a readonly array whose index [0] is present.  An
    array value is a list; its being non-empty is the predicate below, as the
    source asserts it by casts ([as unknown as NonEmptyArray<A>]). *)
Definition nonEmpty {A} (as_ : list A) : Prop := as_ ≠ [].

(** [of]: [[a]] *)
Definition of_ {A} (a : A) : list A := [a].

(** The loop of [range]:
    [for (let i = start; i <= end; i++) { out.push(i) }; return out].
    It need not end, hence the fuel: [None] is a run that is out of fuel. *)
Fixpoint rangeLoop (fuel : nat) (i end_ : JS.number) (out : list JS.number)
  : option (list JS.number) :=
  match fuel with
  | O => None
  | S fuel' =>
      if JS.leb i end_ then rangeLoop fuel' (JS.incr i) end_ (out ++ [i])
      else Some out
  end.

Definition range (fuel : nat) (startInclusive endInclusive : JS.number)
  : option (list JS.number) :=
  let start := JS.floor startInclusive in
  let end_ := JS.floor endInclusive in
  if JS.geb start end_ then Some [start]
  else rangeLoop fuel start end_ [].

(** [reverse]: [as.slice(0).reverse()] *)
Definition reverse {A} (as_ : JS.ref) : JS.M A JS.ref :=
  JS.bind (JS.slice0 as_) JS.reverse.

Section sort.

(** [OrderingComparer.Default] is declared in the missing
    [OrderingComparer.ts]; it is a parameter here. *)
Context {A : Type} (Default : OrderingComparer.t A).

(** [sort(orderingComparer = OrderingComparer.Default)]:
    [as.slice(0).sort(orderingComparer.compare)]; an omitted (or
    [undefined]) argument is [None]. *)
Definition sort (orderingComparer : option (OrderingComparer.t A))
    (as_ : JS.ref) : JS.M A JS.ref :=
  let orderingComparer := default Default orderingComparer in
  JS.bind (JS.slice0 as_)
          (JS.sort (OrderingComparer.compare orderingComparer)).

End sort.

Section getEqualityComparer.

Context {A : Type} (equals : A → A → bool).

(** The loop of the array equality:
    [for (let i = 0; i < arr1.length; i++)
       { if (!equals(arr1[i], arr2[i])) return false }; return true].
    Every call of [equals] is logged.  A read outside an array would yield
    [undefined], which has no counterpart at type [A]: such a run, like one
    that is out of fuel, is [None]. *)
Fixpoint equalsLoop (arr1 arr2 : list A) (fuel i : nat)
  : Calls.t (A * A) (option bool) :=
  match fuel with
  | O => Calls.ret None
  | S fuel' =>
      if (i <? length arr1)%nat then
        match arr1 !! i, arr2 !! i with
        | Some x, Some y =>
            Calls.bind (Calls.call (uncurry equals) (x, y)) (λ e,
              if negb e then Calls.ret (Some false)
              else equalsLoop arr1 arr2 fuel' (S i))
        | _, _ => Calls.ret None
        end
      else Calls.ret (Some true)
  end.

(** The body of the comparer: the length guard, then the loop, which takes
    at most [arr1.length] rounds and one more test of its condition. *)
Definition arraysEqual (arr1 arr2 : list A) : Calls.t (A * A) (option bool) :=
  if negb (length arr1 =? length arr2)%nat then Calls.ret (Some false)
  else equalsLoop arr1 arr2 (S (length arr1)) 0.

End getEqualityComparer.

(** [getEqualityComparer({ equals })].  The loop always returns (see
    [arraysEqual_returns]), so the default below is never taken. *)
Definition getEqualityComparer {A} (equalityComparer : EqualityComparer.t A)
  : EqualityComparer.t (list A) :=
  EqualityComparer.ofEquals (λ arr1 arr2,
    default false
      (Calls.result
         (arraysEqual (EqualityComparer.equals equalityComparer) arr1 arr2))).

(** A call of [getEqualityComparer] in which the argument may be omitted
    ([None]).  The parameter is the pattern [{ equals }] and has no default:
    destructuring [undefined] throws a TypeError ([None]). *)
Definition getEqualityComparerCall {A}
    (equalityComparer : option (EqualityComparer.t A))
  : option (EqualityComparer.t (list A)) :=
  match equalityComparer with
  | Some ec => Some (getEqualityComparer ec)
  | None => None
  end.

(** [head]: [as[0]].  Index [0] of an empty array is [undefined]: [None]. *)
Definition head {A} (as_ : list A) : option A := as_ !! 0%nat.

(** [first]: alias of [head]. *)
Definition first {A} : list A → option A := head.

Module Destructed.

(** The object that [destruct] returns. *)
Record t (A : Type) : Type := { head : option A; tail : list A }.

Arguments head {A} _.
Arguments tail {A} _.

End Destructed.

(** [destruct]: [{ head: as[0], tail: as.slice(1) }] *)
Definition destruct {A} (as_ : list A) : Destructed.t A :=
  {| Destructed.head := as_ !! 0%nat; Destructed.tail := drop 1 as_ |}.

(** [map]: [as.map(f)] *)
Definition map {A B} (f : A → B) (as_ : list A) : list B := f <$> as_.

(** [bind]: [as.flatMap(f)], the arrays [f(a)] one after the other. *)
Definition bind {A B} (f : A → list B) (as_ : list A) : list B :=
  concat (f <$> as_).

(** [flatMap]: alias of [bind]. *)
Definition flatMap {A B} : (A → list B) → list A → list B := bind.

(** [make]: [n = length <= 1 ? 1 : Math.floor(length)], then
    [[...Array(n).keys()].map(createElement)]. *)
Definition make {B} (length : JS.number) (createElement : JS.number → B)
  : option (list B) :=
  let n := if JS.leb length (JS.ofZ 1) then JS.ofZ 1 else JS.floor length in
  match JS.arrayKeys n with
  | Some keys => Some (createElement <$> keys)
  | None => None
  end.

End NonEmptyArray.

(** ** Optional parameters *)

Module Optional.


End Optional.

(** ** The data of the unit tests *)

Module Fixtures.

Local Open Scope string_scope.

Record Person : Type := { name : string }.

Record Cat : Type := {
  cat_name : string;
  age : Z;
  livesRemaining : Z;
}.

(** [EqualityComparer.Number] is declared in the missing
    [EqualityComparer.ts].  Modelled from the spec: value equality for
    numbers. *)
Definition EqNumber : EqualityComparer.t Z :=
  EqualityComparer.ofEquals Z.eqb.

Definition shuffledNumbers : list Z :=
  [-11; -13; 2; 0; 45; 1; 8; 2; 100; -1].

Definition byPersonName : OrderingComparer.t Person :=
  OrderingComparer.deriveFrom OrderingComparer.String name.

Definition unsortedPeople : list Person :=
  [ {| name := "Johnny" |}; {| name := "Larry" |};
    {| name := "Amy" |}; {| name := "Kevin" |} ].

Definition byName : OrderingComparer.t Cat :=
  OrderingComparer.deriveFrom OrderingComparer.String cat_name.

Definition byAge : OrderingComparer.t Cat :=
  OrderingComparer.deriveFrom OrderingComparer.Number age.

Definition byLivesRemainingDesc : OrderingComparer.t Cat :=
  OrderingComparer.deriveFrom
    (OrderingComparer.reverse OrderingComparer.Number) livesRemaining.

Definition cat (n : string) (a l : Z) : Cat :=
  {| cat_name := n; age := a; livesRemaining := l |}.

Definition shuffledCats : list Cat :=
  [ cat "Gerald" 5 9; cat "Rufus" 10 3; cat "Gerald" 5 7;
    cat "Arnold" 1 9; cat "Rufus" 10 1; cat "Gerald" 7 8 ].

Definition sortedCats : list Cat :=
  [ cat "Arnold" 1 9; cat "Gerald" 5 9; cat "Gerald" 5 7;
    cat "Gerald" 7 8; cat "Rufus" 10 3; cat "Rufus" 10 1 ].

(** The comparers that are given, as opposed to derived, in the tests. *)
Inductive Canonical : ∀ A : Type, OrderingComparer.t A → Prop :=
| canonical_Number : Canonical Z OrderingComparer.Number
| canonical_String : Canonical string OrderingComparer.String.

End Fixtures.

(** ** The container equality in the words of the spec *)

Module Reference.

(** "Test elements pairwise in index order, short-circuiting false at first
    mismatch": the walk over two sequences that the spec describes, with the
    calls of the element comparer logged.  It serves to state what the index
    loop of [NonEmptyArray.getEqualityComparer] computes. *)
Fixpoint pairwise {A} (equals : A → A → bool) (l1 l2 : list A)
  : Calls.t (A * A) bool :=
  match l1, l2 with
  | x :: l1', y :: l2' =>
      Calls.bind (Calls.call (uncurry equals) (x, y)) (λ e,
        if e then pairwise equals l1' l2' else Calls.ret false)
  | _, _ => Calls.ret true
  end.

(** "Compare length first (short-circuit false on mismatch), then test
    elements pairwise." *)
Definition containerEquals {A} (equals : A → A → bool) (l1 l2 : list A)
  : Calls.t (A * A) bool :=
  if bool_decide (length l1 = length l2) then pairwise equals l1 l2
  else Calls.ret false.

End Reference.

(** * Properties *)

(** ** The comparer algebra preserves the order laws *)

Section OrderingComparerLaws.

Import OrderingComparer.

Lemma leq_le {A} (oc : t A) a b : leq oc a b = true ↔ compare oc a b ≤ 0.
Proof. unfold leq. apply Z.leb_le. Qed.

(** What antisymmetry says in terms of the order on the integers. *)
Lemma sgn_opp_cases x y :
  Z.sgn x = - Z.sgn y → (x < 0 ↔ 0 < y) ∧ (x = 0 ↔ y = 0) ∧ (0 < x ↔ y < 0).
Proof. destruct x, y; simpl; intros H; try discriminate H; lia. Qed.

Lemma Number_lawful : Lawful Number.
Proof.
  split.
  - intros x. simpl. by rewrite Z.eqb_refl.
  - intros a b. simpl.
    destruct (Z.eqb_spec a b), (Z.eqb_spec b a),
      (Z.ltb_spec a b), (Z.ltb_spec b a); simpl; lia.
  - intros a b c. rewrite !leq_le. simpl.
    destruct (Z.eqb_spec a b), (Z.eqb_spec b c), (Z.eqb_spec a c),
      (Z.ltb_spec a b), (Z.ltb_spec b c), (Z.ltb_spec a c); lia.
Qed.

Lemma ofComparison_sgn c : Z.sgn (ofComparison (CompOpp c)) = - Z.sgn (ofComparison c).
Proof. by destruct c. Qed.

Lemma ascii_compare_refl a : Ascii.compare a a = Eq.
Proof. unfold Ascii.compare. apply N.compare_refl. Qed.

Lemma string_compare_refl s : String.compare s s = Eq.
Proof. induction s as [|a s IH]; simpl; [done|]. by rewrite ascii_compare_refl. Qed.

Lemma string_compare_le_trans s1 s2 s3 :
  String.compare s1 s2 ≠ Gt → String.compare s2 s3 ≠ Gt →
  String.compare s1 s3 ≠ Gt.
Proof.
  revert s2 s3. induction s1 as [|a1 s1 IH]; intros [|a2 s2] [|a3 s3]; simpl; try done.
  unfold Ascii.compare.
  destruct (N.compare_spec (Ascii.N_of_ascii a1) (Ascii.N_of_ascii a2)) as [E12|L12|G12];
    destruct (N.compare_spec (Ascii.N_of_ascii a2) (Ascii.N_of_ascii a3)) as [E23|L23|G23];
    destruct (N.compare_spec (Ascii.N_of_ascii a1) (Ascii.N_of_ascii a3)) as [E13|L13|G13];
    try done; try lia.
  apply IH.
Qed.

Lemma String_lawful : Lawful String.
Proof.
  split.
  - intros x. simpl. by rewrite string_compare_refl.
  - intros a b. simpl. rewrite (String.compare_antisym b a).
    rewrite ofComparison_sgn. lia.
  - intros a b c. rewrite !leq_le. simpl. intros H1 H2.
    pose proof (string_compare_le_trans a b c) as H.
    destruct (String.compare a b), (String.compare b c), (String.compare a c);
      simpl in *; try lia; exfalso; by apply H.
Qed.

Lemma reverse_lawful {A} (oc : t A) : Lawful oc → Lawful (reverse oc).
Proof.
  intros [Hr Ha Ht]. split.
  - intros x. simpl. rewrite Hr. done.
  - intros a b. simpl. rewrite !Z.sgn_opp. by rewrite (Ha a b).
  - intros a b c. rewrite !leq_le. simpl. intros H1 H2.
    pose proof (sgn_opp_cases _ _ (Ha a b)).
    pose proof (sgn_opp_cases _ _ (Ha b c)).
    pose proof (sgn_opp_cases _ _ (Ha a c)).
    pose proof (Ht c b a) as T. rewrite !leq_le in T. lia.
Qed.

Lemma deriveFrom_lawful {A B} (inner : t B) (keyFn : A → B) :
  Lawful inner → Lawful (deriveFrom inner keyFn).
Proof.
  intros [Hr Ha Ht]. split.
  - intros x. apply Hr.
  - intros a b. apply Ha.
  - intros a b c. apply Ht.
Qed.

(** The lexicographic step: a lawful comparer in front of a lawful chain. *)
Lemma getComposite_cons_lawful {A} (c : t A) (rest : list (t A)) :
  Lawful c → Lawful (getComposite rest) → Lawful (getComposite (c :: rest)).
Proof.
  intros [Hr Ha Ht] [Hr' Ha' Ht']. split.
  - intros x. simpl. rewrite Hr. simpl. apply Hr'.
  - intros a b. simpl.
    pose proof (sgn_opp_cases _ _ (Ha a b)).
    destruct (Z.eqb_spec (compare c a b) 0), (Z.eqb_spec (compare c b a) 0);
      try lia. apply Ha'.
  - intros x y z. rewrite !leq_le. simpl.
    pose proof (sgn_opp_cases _ _ (Ha x y)).
    pose proof (sgn_opp_cases _ _ (Ha y z)).
    pose proof (sgn_opp_cases _ _ (Ha x z)).
    pose proof (Ht x y z) as T1. pose proof (Ht z x y) as T2.
    pose proof (Ht y z x) as T3. pose proof (Ht' x y z) as T'.
    rewrite !leq_le in T1, T2, T3, T'. simpl in T'.
    destruct (Z.eqb_spec (compare c x y) 0), (Z.eqb_spec (compare c y z) 0),
      (Z.eqb_spec (compare c x z) 0); lia.
Qed.

Lemma getComposite_lawful {A} (cs : list (t A)) :
  (∀ c, c ∈ cs → Lawful c) → Lawful (getComposite cs).
Proof.
  induction cs as [|c cs IH]; intros Hcs.
  - split; [done| done |]. intros a b c. by rewrite !leq_le.
  - apply getComposite_cons_lawful.
    + apply Hcs. by left.
    + apply IH. intros c' Hc'. apply Hcs. by right.
Qed.

Lemma Canonical_lawful A (oc : t A) : Fixtures.Canonical A oc → Lawful oc.
Proof. destruct 1; [apply Number_lawful | apply String_lawful]. Qed.

(** C1. Every comparer derived by [reverse], [deriveFrom] and
    [getComposite], nested in any way, from comparers that satisfy
    [compare(x,x) == 0], antisymmetry of the sign and transitivity of the
    induced order satisfies these three laws too. *)
Theorem derived_lawful (base : ∀ A, t A → Prop) :
  (∀ A (oc : t A), base A oc → Lawful oc) →
  ∀ A (oc : t A), Derived base A oc → Lawful oc.
Proof.
  intros Hbase A oc Hd.
  induction Hd as [A oc Hb | A oc _ IH | A B inner keyFn _ IH | A cs _ IH].
  - by apply Hbase.
  - by apply reverse_lawful.
  - by apply deriveFrom_lawful.
  - by apply getComposite_lawful.
Qed.

End OrderingComparerLaws.

Section OrderingComparerCombinators.

Import OrderingComparer Fixtures.

Lemma derived_lawful_witness :
  (∀ A (oc : t A), Canonical A oc → Lawful oc) ∧
  Derived Canonical Cat (getComposite [byName; byAge; byLivesRemainingDesc]) ∧
  Lawful (getComposite [byName; byAge; byLivesRemainingDesc]).
Proof.
  assert (Derived Canonical Cat
            (getComposite [byName; byAge; byLivesRemainingDesc])) as Hd.
  { apply derived_getComposite. intros c Hc.
    rewrite !elem_of_cons, elem_of_nil in Hc.
    destruct Hc as [-> | [-> | [-> | []]]]; apply derived_deriveFrom.
    - apply derived_base, canonical_String.
    - apply derived_base, canonical_Number.
    - apply derived_reverse, derived_base, canonical_Number. }
  split; [exact Canonical_lawful | split; [exact Hd |]].
  exact (derived_lawful Canonical Canonical_lawful Cat _ Hd).
Defined.

Lemma compositeCompare_all_zero {A} (cs : list (t A)) a b :
  (∀ c, c ∈ cs → compare c a b = 0) → compositeCompare cs a b = 0.
Proof.
  induction cs as [|c cs IH]; intros Hz; simpl; [done|].
  rewrite (Hz c) by (by left). simpl. apply IH.
  intros c' Hc'. apply Hz. by right.
Qed.

Lemma compositeCompare_skip_zeros {A} (pre cs : list (t A)) a b :
  (∀ c, c ∈ pre → compare c a b = 0) →
  compositeCompare (pre ++ cs) a b = compositeCompare cs a b.
Proof.
  induction pre as [|c pre IH]; intros Hz; simpl; [done|].
  rewrite (Hz c) by (by left). simpl. apply IH.
  intros c' Hc'. apply Hz. by right.
Qed.

(** C2. [getComposite(c1,...,cN).compare(a,b)] is the result of the first
    comparer, in argument order, whose result on [(a,b)] is nonzero, and is
    zero when all [N] results are zero; and
    [getComposite(byName, byAge, byLivesRemainingDesc)] sorts the six cats
    of the unit test into Arnold(1,9), Gerald(5,9), Gerald(5,7),
    Gerald(7,8), Rufus(10,3), Rufus(10,1). *)
Theorem getComposite_first_nonzero :
  (∀ A (cs : list (t A)) a b,
     (∀ c, c ∈ cs → compare c a b = 0) →
     compare (getComposite cs) a b = 0) ∧
  (∀ A (pre : list (t A)) c post a b,
     (∀ c', c' ∈ pre → compare c' a b = 0) →
     compare c a b ≠ 0 →
     compare (getComposite (pre ++ c :: post)) a b = compare c a b) ∧
  JS.sortList (compare (getComposite [byName; byAge; byLivesRemainingDesc]))
    shuffledCats = sortedCats.
Proof.
  split; [|split].
  - intros A cs a b Hz. by apply compositeCompare_all_zero.
  - intros A pre c post a b Hz Hc. simpl.
    rewrite compositeCompare_skip_zeros by done. simpl.
    by destruct (Z.eqb_spec (compare c a b) 0).
  - by vm_compute.
Qed.

Lemma getComposite_first_nonzero_witness :
  compare (getComposite [byName; byAge; byLivesRemainingDesc])
    (cat "Gerald" 5 7) (cat "Gerald" 5 9)
  = compare byLivesRemainingDesc (cat "Gerald" 5 7) (cat "Gerald" 5 9)
  ∧ compare (getComposite [byName; byAge])
      (cat "Gerald" 5 7) (cat "Gerald" 5 9) = 0.
Proof.
  destruct getComposite_first_nonzero as (Hzero & Hfirst & _). split.
  - apply (Hfirst Cat [byName; byAge] byLivesRemainingDesc []).
    + intros c' Hc'. rewrite !elem_of_cons, elem_of_nil in Hc'.
      destruct Hc' as [-> | [-> | []]]; reflexivity.
    + vm_compute. discriminate.
  - apply (Hzero Cat [byName; byAge]).
    intros c' Hc'. rewrite !elem_of_cons, elem_of_nil in Hc'.
    destruct Hc' as [-> | [-> | []]]; reflexivity.
Defined.

(** C3. [reverse(oc).compare(a,b) == -oc.compare(a,b)], and the result is
    zero exactly when [oc.compare(a,b)] is; sorting
    [[-11,-13,2,0,45,1,8,2,100,-1]] with the reversed ascending numeric
    comparer yields [[100,45,8,2,2,1,0,-1,-11,-13]], the mirror of the
    ascending result. *)
Theorem reverse_compare :
  (∀ A (oc : t A) a b, compare (reverse oc) a b = - compare oc a b) ∧
  (∀ A (oc : t A) a b, compare (reverse oc) a b = 0 ↔ compare oc a b = 0) ∧
  JS.sortList (compare (reverse Number)) shuffledNumbers
    = [100; 45; 8; 2; 2; 1; 0; -1; -11; -13] ∧
  JS.sortList (compare (reverse Number)) shuffledNumbers
    = rev (JS.sortList (compare Number) shuffledNumbers).
Proof.
  split; [|split; [|split]].
  - reflexivity.
  - intros A oc a b. simpl. lia.
  - by vm_compute.
  - by vm_compute.
Qed.

(** C4. [deriveFrom(innerComparer, keyFn).compare(a,b)] equals
    [innerComparer.compare(keyFn(a), keyFn(b))], for every inner comparer,
    key function and pair of outer values; so do the relational predicates,
    and the unit test sorts the people by their names. *)
Theorem deriveFrom_compare :
  (∀ A B (innerComparer : t B) (keyFn : A → B) a b,
     compare (deriveFrom innerComparer keyFn) a b
     = compare innerComparer (keyFn a) (keyFn b)) ∧
  (∀ A B (innerComparer : t B) (keyFn : A → B) a b,
     leq (deriveFrom innerComparer keyFn) a b
     = leq innerComparer (keyFn a) (keyFn b)) ∧
  JS.sortList (compare byPersonName) unsortedPeople
  = [ {| name := "Amy" |}; {| name := "Johnny" |};
      {| name := "Kevin" |}; {| name := "Larry" |} ].
Proof.
  split; [|split].
  - intros A B innerComparer keyFn a b. reflexivity.
  - intros A B innerComparer keyFn a b. unfold leq. reflexivity.
  - by vm_compute.
Qed.

(** The unit test of the ascending numeric comparer. *)
Example Number_sorts_ascending :
  JS.sortList (compare Number) shuffledNumbers
  = [-13; -11; -1; 0; 1; 2; 2; 8; 45; 100].
Proof. by vm_compute. Qed.

End OrderingComparerCombinators.

(** ** The host's sort: what the model of [Array.prototype.sort] yields *)

Section HostSort.

Context {A : Type}.
Implicit Types (comparefn : A → A → Z) (l : list A).

Lemma insertSorted_perm comparefn x l : JS.insertSorted comparefn x l ≡ₚ x :: l.
Proof.
  induction l as [|y l IH]; simpl; [done|].
  destruct (comparefn x y <=? 0); [done|].
  rewrite IH. apply Permutation_swap.
Qed.

Lemma sortList_perm comparefn l : JS.sortList comparefn l ≡ₚ l.
Proof.
  induction l as [|x l IH]; simpl; [done|].
  by rewrite insertSorted_perm, IH.
Qed.



Section lawful.

Context (oc : OrderingComparer.t A) (Hoc : OrderingComparer.Lawful oc).

Local Abbreviation le := (OrderingComparer.le oc).

Lemma le_total a b : ¬ le a b → le b a.
Proof.
  unfold OrderingComparer.le. intros H.
  pose proof (sgn_opp_cases _ _ (OrderingComparer.lawful_antisym _ Hoc a b)).
  lia.
Qed.

Lemma le_trans a b c : le a b → le b c → le a c.
Proof.
  unfold OrderingComparer.le. intros H1 H2.
  pose proof (OrderingComparer.lawful_trans _ Hoc a b c) as T.
  rewrite !leq_le in T. auto.
Qed.

Lemma insertSorted_sorted x l :
  StronglySorted le l →
  StronglySorted le (JS.insertSorted (OrderingComparer.compare oc) x l).
Proof.
  induction 1 as [|y l Hs IH Hy]; simpl.
  - repeat constructor.
  - destruct (Z.leb_spec (OrderingComparer.compare oc x y) 0) as [Hle|Hgt].
    + constructor; [by constructor|].
      constructor; [done|].
      eapply Forall_impl; [exact Hy|]. intros z Hz. by eapply le_trans.
    + constructor; [done|].
      rewrite insertSorted_perm. constructor; [|done].
      apply le_total. unfold OrderingComparer.le. lia.
Qed.

(** For a lawful comparer the host's sort leaves the array ordered. *)
Lemma sortList_sorted l :
  StronglySorted le (JS.sortList (OrderingComparer.compare oc) l).
Proof.
  induction l as [|x l IH]; simpl; [constructor|].
  by apply insertSorted_sorted.
Qed.

(** Where ties under the comparer only occur between identical elements,
    the ordered arrangement of an array is unique: every sort that leaves an
    ordered permutation of its input agrees with [JS.sortList]. *)
Lemma sortList_unique l l' :
  (∀ x y, x ∈ l → y ∈ l → OrderingComparer.compare oc x y = 0 → x = y) →
  l' ≡ₚ l → StronglySorted le l' →
  l' = JS.sortList (OrderingComparer.compare oc) l.
Proof.
  intros Hties Hperm Hsorted.
  apply (StronglySorted_unique_strong le);
    [|done|apply sortList_sorted|by rewrite sortList_perm].
  intros x y Hx Hy Hxy Hyx. apply Hties.
  - by rewrite <- Hperm.
  - by rewrite <- (sortList_perm (OrderingComparer.compare oc) l).
  - unfold OrderingComparer.le in Hxy, Hyx.
    pose proof (sgn_opp_cases _ _ (OrderingComparer.lawful_antisym _ Hoc x y)).
    lia.
Qed.

End lawful.

End HostSort.

(** The two sorted arrays of the unit tests do not depend on how the host
    sorts: they are the only ordered arrangements of their inputs. *)

Section SortedOrders.

Import OrderingComparer Fixtures.

Lemma catComparer_lawful :
  Lawful (getComposite [byName; byAge; byLivesRemainingDesc]).
Proof.
  apply getComposite_lawful. intros c Hc.
  rewrite !elem_of_cons, elem_of_nil in Hc.
  destruct Hc as [-> | [-> | [-> | []]]]; apply deriveFrom_lawful.
  - apply String_lawful.
  - apply Number_lawful.
  - apply reverse_lawful, Number_lawful.
Qed.

Lemma sortedCats_unique (l : list Cat) :
  l ≡ₚ shuffledCats →
  StronglySorted (le (getComposite [byName; byAge; byLivesRemainingDesc])) l →
  l = sortedCats.
Proof.
  intros Hperm Hsorted.
  rewrite (sortList_unique _ catComparer_lawful shuffledCats l);
    [by vm_compute | | done | done].
  intros x y Hx Hy. unfold shuffledCats in Hx, Hy.
  rewrite !elem_of_cons, elem_of_nil in Hx, Hy.
  destruct Hx as [-> | [-> | [-> | [-> | [-> | [-> | []]]]]]];
    destruct Hy as [-> | [-> | [-> | [-> | [-> | [-> | []]]]]]];
    intros Hc; first [reflexivity | by vm_compute in Hc].
Qed.

Lemma descendingNumbers_unique (l : list Z) :
  l ≡ₚ shuffledNumbers →
  StronglySorted (le (reverse Number)) l →
  l = [100; 45; 8; 2; 2; 1; 0; -1; -11; -13].
Proof.
  intros Hperm Hsorted.
  rewrite (sortList_unique _ (reverse_lawful _ Number_lawful) shuffledNumbers l);
    [by vm_compute | | done | done].
  intros x y _ _. simpl.
  destruct (Z.eqb_spec x y); [done|]. destruct (x <? y); lia.
Qed.

End SortedOrders.

(** ** NonEmptyArray.sort and NonEmptyArray.reverse *)

Section NonEmptyArraySort.

Context {A : Type}.
Implicit Types (h : gmap positive (list A)) (xs : list A).

Lemma slice0_spec h arr xs :
  h !! arr = Some xs →
  JS.slice0 arr h = Some (fresh (dom h), <[fresh (dom h) := xs]> h)
  ∧ h !! fresh (dom h) = None.
Proof.
  intros Harr. unfold JS.slice0. rewrite Harr. split; [done|].
  apply not_elem_of_dom, is_fresh.
Qed.

(** C10. [NonEmptyArray.sort] (with any comparer, given or defaulted) and
    [NonEmptyArray.reverse] do not mutate their input: the array they return
    is one that did not exist before the call, the input array holds the
    same elements in the same order after the call, and so does every other
    array of the store. *)
Theorem sort_reverse_leave_input (Default : OrderingComparer.t A)
    (orderingComparer : option (OrderingComparer.t A)) h as_ xs :
  h !! as_ = Some xs →
  (∃ r h',
     NonEmptyArray.sort Default orderingComparer as_ h = Some (r, h')
     ∧ h !! r = None
     ∧ h' !! r = Some (JS.sortList
                         (OrderingComparer.compare
                            (default Default orderingComparer)) xs)
     ∧ h' !! as_ = Some xs
     ∧ ∀ r', r' ≠ r → h' !! r' = h !! r')
  ∧
  (∃ r h',
     NonEmptyArray.reverse as_ h = Some (r, h')
     ∧ h !! r = None
     ∧ h' !! r = Some (rev xs)
     ∧ h' !! as_ = Some xs
     ∧ ∀ r', r' ≠ r → h' !! r' = h !! r').
Proof.
  intros Has. destruct (slice0_spec h as_ xs Has) as [Hslice Hfresh].
  set (r := fresh (dom h)) in *.
  assert (as_ ≠ r) as Hne by (intros ->; congruence).
  split.
  - eexists r, _. split; [|split; [done|]].
    + unfold NonEmptyArray.sort, JS.bind. rewrite Hslice.
      unfold JS.sort. rewrite lookup_insert_eq. reflexivity.
    + rewrite insert_insert_eq. split; [by rewrite lookup_insert_eq|].
      split; [by rewrite lookup_insert_ne|].
      intros r' Hr'. by rewrite lookup_insert_ne.
  - eexists r, _. split; [|split; [done|]].
    + unfold NonEmptyArray.reverse, JS.bind. rewrite Hslice.
      unfold JS.reverse. rewrite lookup_insert_eq. reflexivity.
    + rewrite insert_insert_eq. split; [by rewrite lookup_insert_eq|].
      split; [by rewrite lookup_insert_ne|].
      intros r' Hr'. by rewrite lookup_insert_ne.
Qed.

End NonEmptyArraySort.

Section Defaults.

Lemma sort_reverse_leave_input_witness :
  let h : gmap positive (list Z) := {[ 1%positive := [3; 1; 2] ]} in
  h !! 1%positive = Some [3; 1; 2] ∧
  ∃ r h',
    NonEmptyArray.sort OrderingComparer.Number None 1%positive h = Some (r, h')
    ∧ h' !! r = Some [1; 2; 3]
    ∧ h' !! 1%positive = Some [3; 1; 2].
Proof.
  intros h. split; [reflexivity|].
  destruct (sort_reverse_leave_input OrderingComparer.Number None h
              1%positive [3; 1; 2] eq_refl)
    as [(r & h' & Hrun & _ & Hr & Has & _) _].
  exists r, h'. split; [exact Hrun | split; [exact Hr | exact Has]].
Defined.



(** What [isResolvedWith] computes, case by case. *)
Lemma isResolvedWith_cases {A} (Default : EqualityComparer.t A) e oec d :
  Deferred.isResolvedWith Default e oec d =
  match d with
  | Deferred.Resolved actual =>
      EqualityComparer.equals (default Default oec) actual e
  | _ => false
  end.
Proof. by destruct d. Qed.

End Defaults.

(** ** NonEmptyArray.getEqualityComparer *)

Section ArrayEquality.

Context {A : Type} (equals : A → A → bool).
Implicit Types (arr l : list A).

Lemma bind_call {C X Y} (f : C → X) (c : C) (k : X → Calls.t C Y) :
  Calls.bind (Calls.call f c) k
  = (c :: Calls.log (k (f c)), Calls.result (k (f c))).
Proof.
  unfold Calls.bind, Calls.call, Calls.log, Calls.result.
  by destruct (k (f c)).
Qed.

Lemma pairwise_cons x y l1 l2 :
  Reference.pairwise equals (x :: l1) (y :: l2)
  = if equals x y
    then ((x, y) :: Calls.log (Reference.pairwise equals l1 l2),
          Calls.result (Reference.pairwise equals l1 l2))
    else ([(x, y)], false).
Proof.
  cbn [Reference.pairwise]. rewrite bind_call. simpl.
  by destruct (equals x y).
Qed.

(** The index loop, started at [i] with enough fuel on arrays of one length,
    is the pairwise walk over what is left of the arrays from [i] on. *)
Lemma equalsLoop_pairwise arr1 arr2 fuel i :
  length arr1 = length arr2 →
  (length arr1 - i < fuel)%nat →
  NonEmptyArray.equalsLoop equals arr1 arr2 fuel i
  = (Calls.log (Reference.pairwise equals (drop i arr1) (drop i arr2)),
     Some (Calls.result
             (Reference.pairwise equals (drop i arr1) (drop i arr2)))).
Proof.
  intros Hlen. revert i. induction fuel as [|fuel IH]; intros i Hfuel; [lia|].
  cbn [NonEmptyArray.equalsLoop]. destruct (Nat.ltb_spec i (length arr1)) as [Hlt|Hge].
  - destruct (lookup_lt_is_Some_2 arr1 i Hlt) as [x Hx].
    destruct (lookup_lt_is_Some_2 arr2 i ltac:(lia)) as [y Hy].
    rewrite Hx, Hy.
    rewrite (drop_S arr1 x i Hx), (drop_S arr2 y i Hy).
    rewrite pairwise_cons, bind_call. simpl.
    destruct (equals x y); simpl; [|done].
    rewrite IH by lia. done.
  - rewrite (drop_ge arr1 i) by lia. done.
Qed.

(** The body of the comparer refines the container equality of the spec. *)
Lemma arraysEqual_refines arr1 arr2 :
  NonEmptyArray.arraysEqual equals arr1 arr2
  = (Calls.log (Reference.containerEquals equals arr1 arr2),
     Some (Calls.result (Reference.containerEquals equals arr1 arr2))).
Proof.
  unfold NonEmptyArray.arraysEqual, Reference.containerEquals.
  destruct (Nat.eqb_spec (length arr1) (length arr2)) as [Hlen|Hlen];
    cbn [negb].
  - rewrite bool_decide_eq_true_2 by done.
    rewrite equalsLoop_pairwise by (done || lia). by rewrite !drop_0.
  - by rewrite bool_decide_eq_false_2.
Qed.

(** The loop always returns. *)
Lemma arraysEqual_returns arr1 arr2 :
  is_Some (Calls.result (NonEmptyArray.arraysEqual equals arr1 arr2)).
Proof. rewrite arraysEqual_refines. by eexists. Qed.

Lemma pairwise_false l1 l2 :
  Calls.result (Reference.pairwise equals l1 l2) = false ↔
  ∃ i x y, l1 !! i = Some x ∧ l2 !! i = Some y ∧ equals x y = false.
Proof.
  revert l2. induction l1 as [|x l1 IH]; intros [|y l2].
  1-3: split; [done|]; intros (i & x' & y' & H1 & H2 & _); by destruct i.
  rewrite pairwise_cons. destruct (equals x y) eqn:Exy; simpl.
  - rewrite IH. split.
    + intros (i & x' & y' & H1 & H2 & H3). by exists (S i), x', y'.
    + intros ([|i] & x' & y' & H1 & H2 & H3); simpl in *.
      * congruence.
      * by exists i, x', y'.
  - split; [|done]. intros _. by exists 0%nat, x, y.
Qed.

Lemma pairwise_first_mismatch l1 l2 i x y :
  l1 !! i = Some x → l2 !! i = Some y → equals x y = false →
  (∀ j x' y', (j < i)%nat → l1 !! j = Some x' → l2 !! j = Some y' →
              equals x' y' = true) →
  Reference.pairwise equals l1 l2 = (take (S i) (zip l1 l2), false).
Proof.
  revert l1 l2. induction i as [|i IH]; intros [|a l1] [|b l2] H1 H2 Hxy Hbefore;
    try done; simpl in H1, H2; rewrite pairwise_cons.
  - simplify_eq. by rewrite Hxy.
  - rewrite (Hbefore 0%nat a b) by (done || lia).
    rewrite (IH l1 l2 H1 H2 Hxy); [done|].
    intros j x' y' Hj. apply (Hbefore (S j)). lia.
Qed.

Lemma pairwise_all_equal l1 l2 :
  (∀ i x y, l1 !! i = Some x → l2 !! i = Some y → equals x y = true) →
  Reference.pairwise equals l1 l2 = (zip l1 l2, true).
Proof.
  revert l2. induction l1 as [|a l1 IH]; intros [|b l2] Hall; try done.
  rewrite pairwise_cons, (Hall 0%nat a b) by done.
  rewrite IH; [done|]. intros i. apply (Hall (S i)).
Qed.

End ArrayEquality.

Section ContainerEquality.

Import EqualityComparer.

Lemma getEqualityComparer_result {A} (ec : t A) (arr1 arr2 : list A) :
  equals (NonEmptyArray.getEqualityComparer ec) arr1 arr2
  = Calls.result (Reference.containerEquals (equals ec) arr1 arr2).
Proof.
  unfold NonEmptyArray.getEqualityComparer. simpl.
  by rewrite arraysEqual_refines.
Qed.

(** C5. The equality comparer of [NonEmptyArray.getEqualityComparer]
    returns false (without a call of the inner comparer) when the lengths
    differ; returns false when some index holds unequal elements, having
    called the inner comparer on the indices in order up to the first
    mismatch and no further; and returns true exactly when the lengths match
    and all pairs of elements are equal under the inner comparer.
    [[1,2,3]] vs [[1,2]] is false, [[1,2,3]] vs [[1,3,2]] is false,
    [[1,2,3]] vs [[1,2,3]] is true. *)
Theorem getEqualityComparer_spec :
  (∀ A (ec : t A) (arr1 arr2 : list A),
     let run := NonEmptyArray.arraysEqual (equals ec) arr1 arr2 in
     let eq := equals (NonEmptyArray.getEqualityComparer ec) in
     Calls.result run = Some (eq arr1 arr2)
     ∧ (length arr1 ≠ length arr2 →
        eq arr1 arr2 = false ∧ Calls.log run = [])
     ∧ (∀ i x y,
          length arr1 = length arr2 →
          arr1 !! i = Some x → arr2 !! i = Some y → equals ec x y = false →
          eq arr1 arr2 = false)
     ∧ (∀ i x y,
          length arr1 = length arr2 →
          arr1 !! i = Some x → arr2 !! i = Some y → equals ec x y = false →
          (∀ j x' y', (j < i)%nat → arr1 !! j = Some x' → arr2 !! j = Some y' →
                      equals ec x' y' = true) →
          Calls.log run = take (S i) (zip arr1 arr2))
     ∧ (eq arr1 arr2 = true ↔
        length arr1 = length arr2 ∧
        ∀ i x y, arr1 !! i = Some x → arr2 !! i = Some y →
                 equals ec x y = true))
  ∧ equals (NonEmptyArray.getEqualityComparer Fixtures.EqNumber)
      [1; 2; 3] [1; 2] = false
  ∧ equals (NonEmptyArray.getEqualityComparer Fixtures.EqNumber)
      [1; 2; 3] [1; 3; 2] = false
  ∧ equals (NonEmptyArray.getEqualityComparer Fixtures.EqNumber)
      [1; 2; 3] [1; 2; 3] = true.
Proof.
  split; [|by vm_compute].
  intros A ec arr1 arr2 run eq. subst run eq.
  rewrite getEqualityComparer_result, arraysEqual_refines.
  unfold Reference.containerEquals. simpl.
  split; [done|]. split; [|split; [|split]].
  - intros Hlen. by rewrite bool_decide_eq_false_2.
  - intros i x y Hlen Hx Hy Hxy. rewrite bool_decide_eq_true_2 by done.
    apply pairwise_false. by exists i, x, y.
  - intros i x y Hlen Hx Hy Hxy Hbefore. rewrite bool_decide_eq_true_2 by done.
    by rewrite (pairwise_first_mismatch _ _ _ i x y).
  - case_bool_decide as Hlen; simpl.
    + split.
      * intros Htrue. split; [done|]. intros i x y Hx Hy.
        destruct (equals ec x y) eqn:Hxy; [done|].
        assert (Calls.result (Reference.pairwise (equals ec) arr1 arr2) = false)
          as Hfalse by (apply pairwise_false; by exists i, x, y).
        congruence.
      * intros [_ Hall]. by rewrite pairwise_all_equal.
    + split; [done|]. by intros [? _].
Qed.

Lemma getEqualityComparer_spec_witness :
  equals (NonEmptyArray.getEqualityComparer Fixtures.EqNumber)
    [1; 2; 3] [1; 2] = false
  ∧ Calls.log (NonEmptyArray.arraysEqual Z.eqb [1; 2; 3] [1; 3; 2])
    = [(1, 1); (2, 3)]
  ∧ equals (NonEmptyArray.getEqualityComparer Fixtures.EqNumber)
      [4; 5] [4; 5] = true.
Proof.
  destruct getEqualityComparer_spec as [Hgen _].
  split; [|split].
  - destruct (Hgen Z Fixtures.EqNumber [1; 2; 3] [1; 2]) as (_ & Hlen & _).
    apply Hlen. simpl. lia.
  - destruct (Hgen Z Fixtures.EqNumber [1; 2; 3] [1; 3; 2])
      as (_ & _ & _ & Hlog & _).
    apply (Hlog 1%nat 2 3); try reflexivity.
    intros [|j] x' y' Hj Hx' Hy'; [|lia].
    simpl in Hx', Hy'. injection Hx' as <-. injection Hy' as <-. reflexivity.
  - destruct (Hgen Z Fixtures.EqNumber [4; 5] [4; 5]) as (_ & _ & _ & _ & Hiff).
    apply Hiff. split; [reflexivity|].
    intros [|[|i]] x y Hx Hy; simpl in Hx, Hy; try discriminate;
      injection Hx as <-; injection Hy as <-; reflexivity.
Defined.

End ContainerEquality.

(** ** Nullable *)

Section NullableFacts.

Import Nullable.

(** C6. [Nullable.getEqualityComparer(base).equals] is true when both
    arguments are nullish ([null] or [undefined], in any combination), false
    when exactly one is nullish, and [base.equals(a,b)] when both are
    non-nullish. *)
Theorem Nullable_getEqualityComparer_spec {A} (base : EqualityComparer.t A)
    (a1 a2 : t A) :
  (isNullish a1 = true → isNullish a2 = true →
   EqualityComparer.equals (getEqualityComparer base) a1 a2 = true)
  ∧ (isNullish a1 ≠ isNullish a2 →
     EqualityComparer.equals (getEqualityComparer base) a1 a2 = false)
  ∧ (∀ x y, a1 = value x → a2 = value y →
            EqualityComparer.equals (getEqualityComparer base) a1 a2
            = EqualityComparer.equals base x y).
Proof.
  simpl. split; [|split].
  - by destruct a1, a2.
  - by destruct a1, a2.
  - by intros x y -> ->.
Qed.

Lemma Nullable_getEqualityComparer_spec_witness :
  let eq := EqualityComparer.equals (getEqualityComparer Fixtures.EqNumber) in
  eq null undefined = true
  ∧ eq (value 3) undefined = false
  ∧ eq null (value 4) = false
  ∧ eq (value 4) (value 4) = true
  ∧ eq (value 4) (value 5) = false.
Proof.
  intros eq. subst eq. split; [|split; [|split; [|split]]].
  - destruct (Nullable_getEqualityComparer_spec Fixtures.EqNumber
                null undefined) as (Hboth & _ & _).
    apply Hboth; reflexivity.
  - destruct (Nullable_getEqualityComparer_spec Fixtures.EqNumber
                (value 3) undefined) as (_ & Hone & _).
    apply Hone. simpl. discriminate.
  - destruct (Nullable_getEqualityComparer_spec Fixtures.EqNumber
                null (value 4)) as (_ & Hone & _).
    apply Hone. simpl. discriminate.
  - destruct (Nullable_getEqualityComparer_spec Fixtures.EqNumber
                (value 4) (value 4)) as (_ & _ & Hbase).
    rewrite (Hbase 4 4); reflexivity.
  - destruct (Nullable_getEqualityComparer_spec Fixtures.EqNumber
                (value 4) (value 5)) as (_ & _ & Hbase).
    rewrite (Hbase 4 5); reflexivity.
Defined.

(** C9. [Nullable.map(f)] and [Nullable.bind(f)] return a nullish input
    itself: [null] gives [null] and [undefined] gives [undefined], the two
    are not merged into one absent value, and [f] is not called on a nullish
    input. *)
Theorem nullish_passes_through {A B} (f : A → B) (g : A → t B) :
  map f null = Calls.ret null
  ∧ map f undefined = Calls.ret undefined
  ∧ bind g null = Calls.ret null
  ∧ bind g undefined = Calls.ret undefined
  ∧ Calls.result (map f null) ≠ Calls.result (map f undefined)
  ∧ Calls.result (bind g null) ≠ Calls.result (bind g undefined)
  ∧ (∀ n, isNullish n = true →
          Calls.log (map f n) = [] ∧ Calls.log (bind g n) = []
          ∧ isNullish (Calls.result (map f n)) = true
          ∧ isNullish (Calls.result (bind g n)) = true).
Proof.
  split; [done|]. split; [done|]. split; [done|]. split; [done|].
  split; [done|]. split; [done|].
  intros n Hn. by destruct n.
Qed.

Lemma nullish_passes_through_witness :
  Calls.log (map Z.succ undefined) = []
  ∧ Calls.log (bind (λ z, value (Z.succ z)) null) = []
  ∧ map Z.succ (value 32) = ([32], value 33).
Proof.
  destruct (nullish_passes_through Z.succ (λ z, value (Z.succ z)))
    as (_ & _ & _ & _ & _ & _ & Hlog).
  split; [|split].
  - apply (Hlog undefined). reflexivity.
  - apply (Hlog null). reflexivity.
  - reflexivity.
Defined.

End NullableFacts.

(** ** NonEmptyArray.range *)

Section Range.

Import NonEmptyArray.

Lemma ilog2_int n : 0 < n → JS.ilog2 n 1 = Z.log2 n.
Proof.
  intros Hn. unfold JS.ilog2. change (Z.log2 1) with 0. rewrite Z.sub_0_r.
  pose proof (Z.log2_nonneg n). pose proof (Z.log2_spec n Hn) as [Hlo _].
  destruct (Z.leb_spec 0 (Z.log2 n)); [|lia].
  by destruct (Z.leb_spec (1 * 2 ^ Z.log2 n) n); [|lia].
Qed.

Lemma Qred_scaled n k :
  0 ≤ k → Qred (Qmake (n * 2 ^ k) (Z.to_pos (2 ^ k))) = inject_Z n.
Proof.
  intros Hk. assert (0 < 2 ^ k) by (apply Z.pow_pos_nonneg; lia).
  rewrite (Qred_complete _ (inject_Z n)).
  - apply Qred_identity. simpl. apply Z.gcd_1_r.
  - unfold Qeq, inject_Z. simpl. rewrite Z2Pos.id by done. lia.
Qed.

(** The integers up to [2^53] are doubles: rounding leaves them as they
    are. *)
Lemma roundPos_int n : 0 < n ≤ 2 ^ 53 → JS.roundPos n 1 = JS.ofZ n.
Proof.
  intros [Hpos Hle].
  destruct (Z.eq_dec n (2 ^ 53)) as [->|Hne]; [by vm_compute|].
  assert (Z.log2 n < 53) as Hlog by (apply Z.log2_lt_pow2; lia).
  pose proof (Z.log2_nonneg n) as Hnn.
  unfold JS.roundPos. rewrite ilog2_int by done.
  rewrite Z.max_l by lia.
  destruct (Z.leb_spec 0 (Z.log2 n - 52)) as [Hs|Hs].
  - assert (Z.log2 n - 52 = 0) as -> by lia.
    change (2 ^ 0) with 1. rewrite !Z.mul_1_r, Z.div_1_r, Z.mod_1_r.
    simpl. destruct (Z.leb_spec (2 ^ 1024) n); [|done].
    assert (2 ^ 53 < 2 ^ 1024) by done. lia.
  - rewrite Z.div_1_r, Z.mod_1_r. simpl.
    unfold JS.ofZ. f_equal. apply Qred_scaled. lia.
Qed.

Lemma roundToDouble_int z :
  - 2 ^ 53 ≤ z ≤ 2 ^ 53 → JS.roundToDouble (inject_Z z) = JS.ofZ z.
Proof.
  intros Hz. unfold JS.roundToDouble. destruct z as [|n|n]; simpl.
  - done.
  - apply roundPos_int. lia.
  - rewrite roundPos_int by lia. done.
Qed.

(** Within the safe integers [i++] is the exact successor. *)
Lemma incr_ofZ z :
  - 2 ^ 53 ≤ z < 2 ^ 53 → JS.incr (JS.ofZ z) = JS.ofZ (z + 1).
Proof.
  intros Hz. unfold JS.incr, JS.ofZ.
  replace (Qplus (inject_Z z) 1) with (inject_Z (z + 1)).
  - apply roundToDouble_int. lia.
  - unfold Qplus, inject_Z. simpl. by rewrite Z.mul_1_r.
Qed.

(** At [2^53] it is not: [2^53 + 1] is no double and is rounded back to
    [2^53]. *)
Lemma incr_stuck : JS.incr (JS.ofZ (2 ^ 53)) = JS.ofZ (2 ^ 53).
Proof. by vm_compute. Qed.

Lemma incr_not_NaN i : i ≠ JS.NaN → JS.incr i ≠ JS.NaN.
Proof.
  destruct i as [| |q|]; try done. intros _. unfold JS.incr, JS.roundToDouble.
  destruct (Qnum (Qplus q 1)); [done| |]; unfold JS.roundPos;
    repeat case_match; done.
Qed.

Lemma leb_ofZ a b : JS.leb (JS.ofZ a) (JS.ofZ b) = (a <=? b).
Proof.
  unfold JS.leb, JS.ofZ, inject_Z, Qle_bool. simpl.
  by rewrite !Z.mul_1_r.
Qed.

Lemma floor_Finite q : JS.floor (JS.Finite q) = JS.ofZ (Qfloor q).
Proof. reflexivity. Qed.

(** On integers the loop pushes the integers from [i] to [end], and it is
    done after [end - i + 1] rounds and one more test. *)
Lemma rangeLoop_ofZ (n : nat) : ∀ fuel i e out,
  - 2 ^ 53 ≤ i → e < 2 ^ 53 →
  e - i + 1 = Z.of_nat n → (n < fuel)%nat →
  rangeLoop fuel (JS.ofZ i) (JS.ofZ e) out
  = Some (out ++ (JS.ofZ <$> seqZ i (e - i + 1))).
Proof.
  induction n as [|n IH]; intros [|fuel] i e out Hlo Hhi Hn Hfuel; try lia.
  - cbn [rangeLoop]. rewrite leb_ofZ. destruct (Z.leb_spec i e); [lia|].
    rewrite Hn. simpl. by rewrite app_nil_r.
  - cbn [rangeLoop]. rewrite leb_ofZ. destruct (Z.leb_spec i e); [|lia].
    rewrite incr_ofZ, IH by lia.
    rewrite (seqZ_cons i (e - i + 1)) by lia.
    rewrite fmap_cons, <- app_assoc. simpl.
    replace (e - (i + 1) + 1) with (Z.pred (e - i + 1)) by lia.
    by replace (i + 1) with (Z.succ i) by lia.
Qed.

(** On finite numbers within the safe integers [range] returns, given enough
    fuel, and what it returns is the singleton of the floored start when the
    floored start is not below the floored end, and the integers from the one
    to the other otherwise. *)
Lemma range_Finite p q fuel :
  - 2 ^ 53 ≤ Qfloor p → Qfloor q < 2 ^ 53 →
  (Z.to_nat (Qfloor q - Qfloor p + 1) < fuel)%nat →
  range fuel (JS.Finite p) (JS.Finite q)
  = Some (if Qfloor q <=? Qfloor p then [JS.ofZ (Qfloor p)]
          else JS.ofZ <$> seqZ (Qfloor p) (Qfloor q - Qfloor p + 1)).
Proof.
  intros Hlo Hhi Hfuel. unfold range, JS.geb.
  rewrite !floor_Finite, leb_ofZ.
  destruct (Z.leb_spec (Qfloor q) (Qfloor p)) as [Hle|Hlt]; [done|].
  by rewrite (rangeLoop_ofZ (Z.to_nat (Qfloor q - Qfloor p + 1))) by lia.
Qed.

Lemma range_Finite_nonEmpty p q fuel :
  - 2 ^ 53 ≤ Qfloor p → Qfloor q < 2 ^ 53 →
  (Z.to_nat (Qfloor q - Qfloor p + 1) < fuel)%nat →
  ∃ l, range fuel (JS.Finite p) (JS.Finite q) = Some l ∧ nonEmpty l.
Proof.
  intros Hlo Hhi Hfuel. eexists. split; [by apply range_Finite|].
  unfold nonEmpty. destruct (Z.leb_spec (Qfloor q) (Qfloor p)); [done|].
  by rewrite (seqZ_cons (Qfloor p)) by lia.
Qed.

(** With an infinite start the loop never ends: no fuel is enough. *)
Lemma rangeLoop_NegInfinity fuel q out :
  rangeLoop fuel JS.NegInfinity (JS.Finite q) out = None.
Proof. revert out. induction fuel as [|fuel IH]; intros out; [done|]. apply IH. Qed.

(** C8. [NonEmptyArray.range] at [NaN]: the guard [start >= end] is false,
    the condition [i <= end] of the loop is false at once, and the array
    returned is the empty one, though its type says non-empty.  The claimed
    non-emptiness fails there. *)
Theorem range_NaN_is_empty (fuel : nat) (n : JS.number) :
  range (S fuel) JS.NaN n = Some []
  ∧ range (S fuel) n JS.NaN = Some []
  ∧ ¬ nonEmpty (@nil JS.number).
Proof.
  split; [|split].
  - by destruct n.
  - by destruct n.
  - unfold nonEmpty. by intros H.
Qed.

(** The unit tests of [range]. *)
Example range_tests :
  range 10 (JS.ofZ 1) (JS.ofZ 5) = Some (JS.ofZ <$> [1; 2; 3; 4; 5])
  ∧ range 10 (JS.ofZ (-3)) (JS.ofZ 1) = Some (JS.ofZ <$> [-3; -2; -1; 0; 1])
  ∧ range 10 (JS.ofZ 0) (JS.ofZ 0) = Some [JS.ofZ 0]
  ∧ range 10 (JS.ofZ 1) (JS.ofZ (-20)) = Some [JS.ofZ 1]
  ∧ range 10 (JS.Finite (Qmake 41142 10000)) (JS.Finite (Qmake 110034 10000))
    = Some (JS.ofZ <$> [4; 5; 6; 7; 8; 9; 10; 11]).
Proof. by vm_compute. Qed.

End Range.

(** * Further properties of the code *)

(** ** NonEmptyArray.range and NonEmptyArray.make *)

Section RangeAndMake.

Import NonEmptyArray.

Lemma rangeLoop_PosInfinity fuel i out :
  i ≠ JS.NaN → rangeLoop fuel i JS.PosInfinity out = None.
Proof.
  revert i out. induction fuel as [|fuel IH]; intros i out Hnan; [done|].
  cbn [rangeLoop].
  assert (JS.leb i JS.PosInfinity = true) as -> by (by destruct i).
  by apply IH, incr_not_NaN.
Qed.

(** Past the safe integers the loop of [range] gets stuck: [i++] leaves
    [2^53] where it is, and [range(2^53 - 2, 2^53)] never returns. *)
Lemma rangeLoop_stuck fuel out :
  rangeLoop fuel (JS.ofZ (2 ^ 53)) (JS.ofZ (2 ^ 53)) out = None.
Proof.
  revert out. induction fuel as [|fuel IH]; intros out; [done|].
  cbn [rangeLoop]. rewrite leb_ofZ, incr_stuck.
  destruct (Z.leb_spec (2 ^ 53) (2 ^ 53)); [apply IH|lia].
Qed.

Lemma range_past_safe_integers fuel :
  range fuel (JS.ofZ (2 ^ 53 - 2)) (JS.ofZ (2 ^ 53)) = None.
Proof.
  unfold range, JS.geb, JS.floor, JS.ofZ. rewrite !Qfloor_Z.
  fold (JS.ofZ (2 ^ 53 - 2)) (JS.ofZ (2 ^ 53)).
  rewrite leb_ofZ. destruct (Z.leb_spec (2 ^ 53) (2 ^ 53 - 2)); [lia|].
  destruct fuel as [|fuel]; [done|]. cbn [rangeLoop]. rewrite leb_ofZ.
  destruct (Z.leb_spec (2 ^ 53 - 2) (2 ^ 53)); [|lia].
  rewrite incr_ofZ by lia.
  destruct fuel as [|fuel]; [done|]. cbn [rangeLoop]. rewrite leb_ofZ.
  destruct (Z.leb_spec (2 ^ 53 - 2 + 1) (2 ^ 53)); [|lia].
  rewrite incr_ofZ by lia.
  replace (2 ^ 53 - 2 + 1 + 1) with (2 ^ 53) by lia.
  apply rangeLoop_stuck.
Qed.

(** X1. On finite bounds whose floors lie within the safe integers, from
    [-2^53] to below [2^53], where every [i++] of the loop is exact, and
    which span fewer than [2^32] integers, the most that an array of the host
    holds, [range] returns once it has enough fuel; the array is non-empty,
    starts with the floored start, has
    [max 1 (floor end - floor start + 1)] elements, and its index [i] holds
    [floor start + i]. *)
Theorem range_finite_spec p q fuel :
  - 2 ^ 53 ≤ Qfloor p → Qfloor q < 2 ^ 53 →
  Qfloor q - Qfloor p + 1 < 2 ^ 32 →
  (Z.to_nat (Qfloor q - Qfloor p + 1) < fuel)%nat →
  ∃ l, range fuel (JS.Finite p) (JS.Finite q) = Some l
       ∧ nonEmpty l
       ∧ head l = Some (JS.ofZ (Qfloor p))
       ∧ length l = Z.to_nat (Z.max 1 (Qfloor q - Qfloor p + 1))
       ∧ ∀ i : nat, (i < length l)%nat →
                    l !! i = Some (JS.ofZ (Qfloor p + Z.of_nat i)).
Proof.
  intros Hlo Hhi _ Hfuel. eexists. split; [by apply range_Finite|].
  unfold nonEmpty, head.
  destruct (Z.leb_spec (Qfloor q) (Qfloor p)) as [Hle|Hlt].
  - split; [done|]. split; [done|]. split; [simpl; lia|].
    intros [|i] Hi; simpl in *; [|lia]. by rewrite Z.add_0_r.
  - rewrite length_fmap, length_seqZ.
    split; [by rewrite (seqZ_cons (Qfloor p)) by lia|].
    split; [by rewrite (seqZ_cons (Qfloor p)) by lia|].
    split; [lia|].
    intros i Hi. rewrite list_lookup_fmap, lookup_seqZ_lt by lia. done.
Qed.

Lemma range_finite_spec_witness :
  ∃ l, range 10 (JS.Finite (Qmake 41142 10000)) (JS.Finite (Qmake 110034 10000))
       = Some l
       ∧ length l = 8%nat
       ∧ l !! 7%nat = Some (JS.ofZ 11).
Proof.
  destruct (range_finite_spec (Qmake 41142 10000) (Qmake 110034 10000) 10)
    as (l & Hrun & _ & _ & Hlen & Hl).
  { vm_compute. discriminate. }
  { vm_compute. reflexivity. }
  { vm_compute. reflexivity. }
  { vm_compute. lia. }
  exists l. split; [exact Hrun|]. split; [exact Hlen|].
  apply (Hl 7%nat). rewrite Hlen. vm_compute. lia.
Defined.

(** X2. With an infinite bound that the start lies below, the condition of
    the loop of [range] never fails: no amount of fuel lets [range]
    return. *)
Theorem range_infinite_never_returns (fuel : nat) (p : Q) :
  range fuel JS.NegInfinity (JS.Finite p) = None
  ∧ range fuel (JS.Finite p) JS.PosInfinity = None
  ∧ range fuel JS.NegInfinity JS.PosInfinity = None.
Proof.
  split; [|split].
  - apply rangeLoop_NegInfinity.
  - unfold range. cbn [JS.floor JS.geb JS.leb]. by apply rangeLoop_PosInfinity.
  - unfold range. cbn [JS.floor JS.geb JS.leb]. by apply rangeLoop_PosInfinity.
Qed.

Lemma arrayKeys_ofZ k :
  0 ≤ k < 2 ^ 32 → JS.arrayKeys (JS.ofZ k) = Some (JS.ofZ <$> seqZ 0 k).
Proof.
  intros [H0 H32]. unfold JS.arrayKeys, JS.ofZ. rewrite Qfloor_Z.
  rewrite Qeq_bool_refl.
  destruct (Z.leb_spec 0 k); [|lia]. destruct (Z.ltb_spec k (2 ^ 32)); [|lia].
  done.
Qed.

Lemma arrayKeys_too_long k :
  2 ^ 32 ≤ k → JS.arrayKeys (JS.ofZ k) = None.
Proof.
  intros H32. unfold JS.arrayKeys, JS.ofZ. rewrite Qfloor_Z.
  destruct (Z.ltb_spec k (2 ^ 32)); [lia|]. by rewrite andb_false_r.
Qed.

(** The normalisation of the length: [length <= 1 ? 1 : Math.floor(length)]
    is [max 1 (floor length)] on finite numbers. *)
Lemma make_length_normalised q :
  (if JS.leb (JS.Finite q) (JS.ofZ 1) then JS.ofZ 1 else JS.floor (JS.Finite q))
  = JS.ofZ (Z.max 1 (Qfloor q)).
Proof.
  unfold JS.leb, JS.ofZ. destruct (Qle_bool q (inject_Z 1)) eqn:Hle.
  - apply Qle_bool_iff, Qfloor_resp_le in Hle. rewrite Qfloor_Z in Hle.
    by rewrite Z.max_l by lia.
  - assert (Qle (inject_Z 1) q) as Hge.
    { apply Qlt_le_weak, Qnot_le_lt. intros H%Qle_bool_iff. congruence. }
    apply Qfloor_resp_le in Hge. rewrite Qfloor_Z in Hge.
    simpl. by rewrite Z.max_r by lia.
Qed.

(** X3. [make] on a finite length below [2^32]: the array returned is non-empty,
    has [max 1 (floor length)] elements, and its index [i] holds
    [createElement(i)]. *)
Theorem make_spec {B} (q : Q) (createElement : JS.number → B) :
  Qfloor q < 2 ^ 32 →
  ∃ l, make (JS.Finite q) createElement = Some l
       ∧ nonEmpty l
       ∧ length l = Z.to_nat (Z.max 1 (Qfloor q))
       ∧ ∀ i : nat, (i < length l)%nat →
                    l !! i = Some (createElement (JS.ofZ (Z.of_nat i))).
Proof.
  intros H32. unfold make. rewrite make_length_normalised.
  rewrite arrayKeys_ofZ by lia. eexists. split; [done|].
  rewrite !length_fmap, length_seqZ. split; [|split; [done|]].
  - unfold nonEmpty. by rewrite (seqZ_cons 0) by lia.
  - intros i Hi. rewrite !list_lookup_fmap, lookup_seqZ_lt by lia. done.
Qed.

Lemma make_spec_witness :
  ∃ l, make (JS.Finite (Qmake (-2011) 100)) (λ _, 7) = Some l
       ∧ length l = 1%nat
       ∧ l !! 0%nat = Some 7.
Proof.
  destruct (make_spec (Qmake (-2011) 100) (λ _, 7)) as (l & Hrun & _ & Hlen & Hl).
  { vm_compute. reflexivity. }
  exists l. split; [exact Hrun|]. split; [exact Hlen|].
  apply (Hl 0%nat). rewrite Hlen. vm_compute. lia.
Defined.

(** X4. [make] outside that range: [NaN], [Infinity] and a finite length of
    [2^32] or more make [Array(n)] throw a RangeError, whereas [-Infinity]
    is normalised to a length of one. *)
Theorem make_RangeError {B} (createElement : JS.number → B) :
  make JS.NaN createElement = None
  ∧ make JS.PosInfinity createElement = None
  ∧ make JS.NegInfinity createElement = Some [createElement (JS.ofZ 0)]
  ∧ ∀ q, 2 ^ 32 ≤ Qfloor q → make (JS.Finite q) createElement = None.
Proof.
  split; [done|]. split; [done|]. split; [done|].
  intros q H32. unfold make. rewrite make_length_normalised.
  by rewrite arrayKeys_too_long by lia.
Qed.

Lemma make_RangeError_witness :
  make (JS.ofZ (2 ^ 32)) (λ i, i) = None.
Proof.
  destruct (make_RangeError (λ i : JS.number, i)) as (_ & _ & _ & Hbig).
  apply (Hbig (inject_Z (2 ^ 32))). vm_compute. discriminate.
Defined.

End RangeAndMake.

(** ** NonEmptyArray.head, destruct, map and bind *)

Section HeadMapBind.

Import NonEmptyArray.

Lemma nonEmpty_length {A} (l : list A) : nonEmpty l ↔ (0 < length l)%nat.
Proof. unfold nonEmpty. destruct l; simpl; [split; [done|lia]|split; [lia|done]]. Qed.

(** X5. [destruct] of a non-empty array splits it without loss: the head is its
    first element, and the head in front of the tail is the array again. *)
Theorem destruct_roundtrip {A} (as_ : list A) :
  nonEmpty as_ →
  ∃ a, head as_ = Some a
       ∧ Destructed.head (destruct as_) = Some a
       ∧ a :: Destructed.tail (destruct as_) = as_
       ∧ length (Destructed.tail (destruct as_)) = pred (length as_).
Proof.
  unfold nonEmpty. destruct as_ as [|a as_]; [done|]. intros _.
  exists a. simpl. by rewrite drop_0.
Qed.

Lemma destruct_roundtrip_witness :
  ∃ a, head [1; 2; 3] = Some a
       ∧ a :: Destructed.tail (destruct [1; 2; 3]) = [1; 2; 3].
Proof.
  destruct (destruct_roundtrip [1; 2; 3]) as (a & Hhead & _ & Htail & _).
  { unfold nonEmpty. discriminate. }
  exists a. split; [exact Hhead | exact Htail].
Defined.

(** X6. The casts of [map] and [bind] to [NonEmptyArray] are sound: the map of a
    non-empty array is non-empty, of the same length, with the image of the
    head as its head; the bind of a non-empty array through a function into
    non-empty arrays is non-empty and at least as long. *)
Theorem map_bind_keep_nonEmpty {A B} (f : A → B) (g : A → list B)
    (as_ : list A) :
  nonEmpty as_ →
  nonEmpty (map f as_)
  ∧ length (map f as_) = length as_
  ∧ head (map f as_) = f <$> head as_
  ∧ ((∀ a, a ∈ as_ → nonEmpty (g a)) →
     nonEmpty (bind g as_) ∧ (length as_ ≤ length (bind g as_))%nat).
Proof.
  intros Has. unfold map, bind, head.
  split; [|split; [by rewrite length_fmap|split; [by rewrite list_lookup_fmap|]]].
  { unfold nonEmpty in *. by destruct as_. }
  intros Hg.
  assert (length as_ ≤ length (concat (g <$> as_)))%nat as Hlen.
  { clear Has. induction as_ as [|a as_ IH]; [simpl; lia|].
    rewrite fmap_cons. cbn [concat length]. rewrite length_app.
    pose proof (proj1 (nonEmpty_length _) (Hg a ltac:(by left))).
    assert (length as_ ≤ length (concat (g <$> as_)))%nat
      by (apply IH; intros a' Ha'; apply Hg; by right).
    lia. }
  split; [|done].
  unfold nonEmpty in *. destruct as_; [done|].
  intros Hnil. rewrite Hnil in Hlen. simpl in Hlen. lia.
Qed.

Lemma map_bind_keep_nonEmpty_witness :
  nonEmpty (map Z.succ [1; 2]) ∧ nonEmpty (bind (λ z, [z; z]) [1; 2]).
Proof.
  destruct (map_bind_keep_nonEmpty Z.succ (λ z, [z; z]) [1; 2])
    as (Hmap & _ & _ & Hbind).
  { unfold nonEmpty. discriminate. }
  split; [exact Hmap|]. apply Hbind.
  intros a _. unfold nonEmpty. discriminate.
Defined.

(** X7. [bind] with [of] and [map]: [of] is a unit of [bind] on both sides,
    [bind] is associative, and [map] is [bind] through [of]. *)
Theorem bind_laws {A B C} (f : A → B) (g1 : A → list B) (g2 : B → list C)
    (a : A) (as_ : list A) :
  bind of_ as_ = as_
  ∧ bind g1 (of_ a) = g1 a
  ∧ bind g2 (bind g1 as_) = bind (λ x, bind g2 (g1 x)) as_
  ∧ map f as_ = bind (λ x, of_ (f x)) as_
  ∧ flatMap g1 as_ = bind g1 as_.
Proof.
  unfold bind, map, of_, flatMap. split; [|split; [|split; [|split]]].
  - induction as_ as [|x as_ IH]; [done|].
    rewrite fmap_cons. cbn [concat]. by rewrite IH.
  - simpl. by rewrite app_nil_r.
  - induction as_ as [|x as_ IH]; [done|].
    rewrite !fmap_cons. cbn [concat]. by rewrite fmap_app, concat_app, IH.
  - induction as_ as [|x as_ IH]; [done|].
    rewrite !fmap_cons. cbn [concat]. by rewrite <- IH.
  - done.
Qed.

End HeadMapBind.

(** ** NonEmptyArray.reverse and NonEmptyArray.sort, composed *)

Section ReverseAndSort.

Context {A : Type}.
Implicit Types (h : gmap positive (list A)) (xs ys : list A).

Lemma reverse_run h as_ xs :
  h !! as_ = Some xs →
  NonEmptyArray.reverse as_ h
  = Some (fresh (dom h), <[fresh (dom h) := rev xs]> h).
Proof.
  intros Has. destruct (slice0_spec h as_ xs Has) as [Hslice _].
  unfold NonEmptyArray.reverse, JS.bind. rewrite Hslice.
  unfold JS.reverse. by rewrite lookup_insert_eq, insert_insert_eq.
Qed.

Lemma sort_run (Default : OrderingComparer.t A) oc h as_ xs :
  h !! as_ = Some xs →
  NonEmptyArray.sort Default oc as_ h
  = Some (fresh (dom h),
          <[fresh (dom h) :=
              JS.sortList (OrderingComparer.compare (default Default oc)) xs]> h).
Proof.
  intros Has. destruct (slice0_spec h as_ xs Has) as [Hslice _].
  unfold NonEmptyArray.sort, JS.bind. rewrite Hslice.
  unfold JS.sort. by rewrite lookup_insert_eq, insert_insert_eq.
Qed.

Lemma fresh_lookup h : h !! fresh (dom h) = None.
Proof. apply not_elem_of_dom, is_fresh. Qed.

(** X8. Reversing twice gives back the elements in their order, in a third
    array: the input and the intermediate array are both left as they
    were. *)
Theorem reverse_twice h as_ xs :
  h !! as_ = Some xs →
  ∃ r1 r2 h',
    JS.bind (NonEmptyArray.reverse as_) NonEmptyArray.reverse h = Some (r2, h')
    ∧ r1 ≠ as_ ∧ r2 ≠ as_ ∧ r2 ≠ r1
    ∧ h' !! r2 = Some xs
    ∧ h' !! r1 = Some (rev xs)
    ∧ h' !! as_ = Some xs.
Proof.
  intros Has.
  set (r1 := fresh (dom h)). set (h1 := <[r1 := rev xs]> h).
  set (r2 := fresh (dom h1)).
  assert (h1 !! r1 = Some (rev xs)) as Hr1 by apply lookup_insert_eq.
  assert (r1 ≠ as_) as Hne1.
  { intros E. pose proof (fresh_lookup h) as Hf. fold r1 in Hf. congruence. }
  assert (h1 !! as_ = Some xs) as Has1 by (unfold h1; by rewrite lookup_insert_ne).
  pose proof (fresh_lookup h1) as Hf2. fold r2 in Hf2.
  assert (r2 ≠ r1) as Hne21 by congruence.
  assert (r2 ≠ as_) as Hne2 by congruence.
  exists r1, r2, (<[r2 := rev (rev xs)]> h1). split.
  - unfold JS.bind. rewrite (reverse_run h as_ xs Has).
    apply (reverse_run h1 r1 (rev xs) Hr1).
  - split; [done|]. split; [done|]. split; [done|].
    split; [by rewrite lookup_insert_eq, rev_involutive|].
    split; by rewrite lookup_insert_ne.
Qed.

Section lawful.

Context (Default : OrderingComparer.t A)
        (orderingComparer : option (OrderingComparer.t A)).

Local Abbreviation oc := (default Default orderingComparer).
Local Abbreviation le := (OrderingComparer.le oc).

Context (Hoc : OrderingComparer.Lawful oc).


(** An ordered array is left as it is by the host's sort. *)
Lemma sortList_sorted_id xs :
  StronglySorted le xs → JS.sortList (OrderingComparer.compare oc) xs = xs.
Proof.
  induction 1 as [|x xs Hs IH Hx]; simpl; [done|]. rewrite IH.
  destruct Hx as [|y xs Hxy _]; simpl; [done|].
  unfold OrderingComparer.le in Hxy.
  by destruct (Z.leb_spec (OrderingComparer.compare oc x y) 0); [|lia].
Qed.


(** An [undefined] element goes last though the comparer would have it
    first: the host's sort of [[3, undefined, 1]] is [[1, 3, undefined]]. *)
Example sortArray_undefined_last :
  JS.sortArray (λ x : option Z, if x is None then true else false)
    (λ x y, match x, y with
            | None, None => 0
            | None, Some _ => -1
            | Some _, None => 1
            | Some a, Some b => OrderingComparer.compare OrderingComparer.Number a b
            end)
    [Some 3; None; Some 1]
  = [Some 1; Some 3; None].
Proof. by vm_compute. Qed.


(** X10. Sorting is idempotent: the sort of the sorted copy holds the same
    elements in the same order as the sorted copy. *)
Theorem sort_idempotent h as_ xs :
  h !! as_ = Some xs →
  ∃ r1 r2 h',
    JS.bind (NonEmptyArray.sort Default orderingComparer as_)
            (NonEmptyArray.sort Default orderingComparer) h = Some (r2, h')
    ∧ r2 ≠ r1
    ∧ h' !! r1 = Some (JS.sortList (OrderingComparer.compare oc) xs)
    ∧ h' !! r2 = h' !! r1.
Proof.
  intros Has.
  set (ys := JS.sortList (OrderingComparer.compare oc) xs).
  set (r1 := fresh (dom h)). set (h1 := <[r1 := ys]> h).
  set (r2 := fresh (dom h1)).
  assert (h1 !! r1 = Some ys) as Hr1 by apply lookup_insert_eq.
  pose proof (fresh_lookup h1) as Hf2. fold r2 in Hf2.
  assert (r2 ≠ r1) as Hne by congruence.
  exists r1, r2, (<[r2 := JS.sortList (OrderingComparer.compare oc) ys]> h1).
  split.
  - unfold JS.bind. rewrite (sort_run Default orderingComparer h as_ xs Has).
    apply (sort_run Default orderingComparer h1 r1 ys Hr1).
  - split; [done|]. split; [by rewrite lookup_insert_ne|].
    rewrite lookup_insert_eq, lookup_insert_ne, Hr1 by done.
    f_equal. apply sortList_sorted_id. by apply sortList_sorted.
Qed.

End lawful.

End ReverseAndSort.

Section ReverseAndSortWitnesses.

Lemma reverse_twice_witness :
  let h : gmap positive (list Z) := {[ 1%positive := [3; 1; 2] ]} in
  ∃ r2 h',
    JS.bind (NonEmptyArray.reverse 1%positive) NonEmptyArray.reverse h
    = Some (r2, h')
    ∧ h' !! r2 = Some [3; 1; 2].
Proof.
  intros h.
  destruct (reverse_twice h 1%positive [3; 1; 2] eq_refl)
    as (r1 & r2 & h' & Hrun & _ & _ & _ & Hr2 & _).
  exists r2, h'. split; [exact Hrun | exact Hr2].
Defined.


Lemma sort_idempotent_witness :
  let h : gmap positive (list Z) := {[ 1%positive := [3; 1; 2] ]} in
  ∃ r1 r2 h',
    JS.bind (NonEmptyArray.sort OrderingComparer.Number None 1%positive)
            (NonEmptyArray.sort OrderingComparer.Number None) h = Some (r2, h')
    ∧ h' !! r1 = Some [1; 2; 3]
    ∧ h' !! r2 = h' !! r1.
Proof.
  intros h.
  destruct (sort_idempotent OrderingComparer.Number None
              Number_lawful h 1%positive [3; 1; 2] eq_refl)
    as (r1 & r2 & h' & Hrun & _ & Hr1 & Hr2).
  exists r1, r2, h'. split; [exact Hrun|]. split; [exact Hr1 | exact Hr2].
Defined.

End ReverseAndSortWitnesses.

(** ** Sorting by the reversed comparer *)

Section SortReversed.

Context {A : Type} (oc : OrderingComparer.t A)
        (Hoc : OrderingComparer.Lawful oc).
Implicit Types (h : gmap positive (list A)) (xs : list A).





End SortReversed.

Section SortReversedWitness.


End SortReversedWitness.

(** ** The derived equality comparers as equivalences *)

Section DerivedEquality.

Import EqualityComparer.

Lemma pairwise_Forall2 {A} (eq : A → A → bool) (l1 l2 : list A) :
  length l1 = length l2 →
  Calls.result (Reference.pairwise eq l1 l2) = true
  ↔ Forall2 (λ x y, eq x y = true) l1 l2.
Proof.
  revert l2. induction l1 as [|x l1 IH]; intros [|y l2] Hlen; try done.
  rewrite pairwise_cons, Forall2_cons. simpl in Hlen.
  destruct (eq x y); simpl.
  - rewrite IH by lia. split; [by intros ?; split | by intros [_ ?]].
  - split; [done | by intros [? _]].
Qed.

Lemma getEqualityComparer_Forall2 {A} (ec : t A) (arr1 arr2 : list A) :
  equals (NonEmptyArray.getEqualityComparer ec) arr1 arr2 = true
  ↔ Forall2 (λ x y, equals ec x y = true) arr1 arr2.
Proof.
  rewrite getEqualityComparer_result. unfold Reference.containerEquals.
  case_bool_decide as Hlen.
  - by apply pairwise_Forall2.
  - simpl. split; [done|]. intros H%Forall2_length. done.
Qed.

(** X12. The array comparer is reflexive, symmetric and transitive whenever the
    element comparer is. *)
Theorem getEqualityComparer_equivalence {A} (ec : t A) :
  ((∀ x, equals ec x x = true) →
   ∀ arr, equals (NonEmptyArray.getEqualityComparer ec) arr arr = true)
  ∧ ((∀ x y, equals ec x y = equals ec y x) →
     ∀ arr1 arr2,
       equals (NonEmptyArray.getEqualityComparer ec) arr1 arr2
       = equals (NonEmptyArray.getEqualityComparer ec) arr2 arr1)
  ∧ ((∀ x y z, equals ec x y = true → equals ec y z = true →
               equals ec x z = true) →
     ∀ arr1 arr2 arr3,
       equals (NonEmptyArray.getEqualityComparer ec) arr1 arr2 = true →
       equals (NonEmptyArray.getEqualityComparer ec) arr2 arr3 = true →
       equals (NonEmptyArray.getEqualityComparer ec) arr1 arr3 = true).
Proof.
  split; [|split].
  - intros Hrefl arr. apply getEqualityComparer_Forall2.
    induction arr; by constructor.
  - intros Hsym arr1 arr2. apply Bool.eq_iff_eq_true.
    rewrite !getEqualityComparer_Forall2, <- (Forall2_flip _ arr1 arr2).
    split; intros H; (eapply Forall2_impl; [exact H|]);
      unfold flip; intros x y; by rewrite Hsym.
  - intros Htrans arr1 arr2 arr3.
    rewrite !getEqualityComparer_Forall2. apply Forall2_trans, Htrans.
Qed.

Lemma getEqualityComparer_equivalence_witness :
  equals (NonEmptyArray.getEqualityComparer Fixtures.EqNumber) [1; 2] [1; 2]
  = true
  ∧ equals (NonEmptyArray.getEqualityComparer Fixtures.EqNumber) [1; 2] [2; 1]
    = equals (NonEmptyArray.getEqualityComparer Fixtures.EqNumber) [2; 1] [1; 2].
Proof.
  destruct (getEqualityComparer_equivalence Fixtures.EqNumber)
    as (Hrefl & Hsym & _).
  split.
  - apply Hrefl. intros x. simpl. apply Z.eqb_refl.
  - apply Hsym. intros x y. simpl. apply Z.eqb_sym.
Defined.

(** X13. With an element comparer that decides identity of elements, the array
    comparer decides identity of arrays. *)
Theorem getEqualityComparer_decides_identity {A} (ec : t A) :
  (∀ x y, equals ec x y = true ↔ x = y) →
  ∀ arr1 arr2,
    equals (NonEmptyArray.getEqualityComparer ec) arr1 arr2 = true
    ↔ arr1 = arr2.
Proof.
  intros Hdec arr1 arr2.
  rewrite getEqualityComparer_Forall2, list_eq_Forall2.
  split; intros H; (eapply Forall2_impl; [exact H|]);
    intros x y; by rewrite Hdec.
Qed.

Lemma getEqualityComparer_decides_identity_witness :
  equals (NonEmptyArray.getEqualityComparer Fixtures.EqNumber)
    [1; 2; 3] [1; 2; 3] = true
  ∧ equals (NonEmptyArray.getEqualityComparer Fixtures.EqNumber)
      [1; 2; 3] [1; 3; 2] ≠ true.
Proof.
  assert (∀ x y, equals Fixtures.EqNumber x y = true ↔ x = y) as Hdec
    by (intros x y; simpl; apply Z.eqb_eq).
  split.
  - by apply (getEqualityComparer_decides_identity Fixtures.EqNumber Hdec).
  - intros H.
    apply (getEqualityComparer_decides_identity Fixtures.EqNumber Hdec) in H.
    discriminate H.
Defined.

Lemma pairwise_log_prefix {A} (eq : A → A → bool) (l1 l2 : list A) :
  Calls.log (Reference.pairwise eq l1 l2) `prefix_of` zip l1 l2.
Proof.
  revert l2. induction l1 as [|x l1 IH]; intros [|y l2];
    try apply prefix_nil.
  rewrite pairwise_cons. destruct (eq x y); simpl.
  - apply prefix_cons, IH.
  - apply prefix_cons, prefix_nil.
Qed.

(** X14. The array comparer calls the element comparer on pairs of elements of
    one index only, from index [0] on without a gap, and at most once per
    index. *)
Theorem arraysEqual_calls {A} (eq : A → A → bool) (arr1 arr2 : list A) :
  Calls.log (NonEmptyArray.arraysEqual eq arr1 arr2)
    `prefix_of` zip arr1 arr2
  ∧ (length (Calls.log (NonEmptyArray.arraysEqual eq arr1 arr2))
     ≤ length arr1)%nat.
Proof.
  assert (Calls.log (NonEmptyArray.arraysEqual eq arr1 arr2)
            `prefix_of` zip arr1 arr2) as Hpre.
  { rewrite arraysEqual_refines. unfold Reference.containerEquals. simpl.
    case_bool_decide; [apply pairwise_log_prefix | apply prefix_nil]. }
  split; [done|].
  apply prefix_length in Hpre. rewrite length_zip in Hpre. lia.
Qed.

(** X15. The nullable comparer is reflexive, symmetric and transitive whenever
    the base comparer is. *)
Theorem Nullable_getEqualityComparer_equivalence {A} (base : t A) :
  ((∀ x, equals base x x = true) →
   ∀ a, equals (Nullable.getEqualityComparer base) a a = true)
  ∧ ((∀ x y, equals base x y = equals base y x) →
     ∀ a1 a2,
       equals (Nullable.getEqualityComparer base) a1 a2
       = equals (Nullable.getEqualityComparer base) a2 a1)
  ∧ ((∀ x y z, equals base x y = true → equals base y z = true →
               equals base x z = true) →
     ∀ a1 a2 a3,
       equals (Nullable.getEqualityComparer base) a1 a2 = true →
       equals (Nullable.getEqualityComparer base) a2 a3 = true →
       equals (Nullable.getEqualityComparer base) a1 a3 = true).
Proof.
  split; [|split].
  - intros Hrefl [| |x]; simpl; auto.
  - intros Hsym [| |x] [| |y]; simpl; auto.
  - intros Htrans [| |x] [| |y] [| |z]; simpl; auto; try discriminate.
    apply Htrans.
Qed.

Lemma Nullable_getEqualityComparer_equivalence_witness :
  equals (Nullable.getEqualityComparer Fixtures.EqNumber)
    (Nullable.value 4) (Nullable.value 4) = true
  ∧ equals (Nullable.getEqualityComparer Fixtures.EqNumber)
      Nullable.null (Nullable.value 4)
    = equals (Nullable.getEqualityComparer Fixtures.EqNumber)
        (Nullable.value 4) Nullable.null.
Proof.
  destruct (Nullable_getEqualityComparer_equivalence Fixtures.EqNumber)
    as (Hrefl & Hsym & _).
  split.
  - apply Hrefl. intros x. simpl. apply Z.eqb_refl.
  - apply Hsym. intros x y. simpl. apply Z.eqb_sym.
Defined.

End DerivedEquality.

(** ** Nullable: how map, bind, iter and the defaults compose *)

Section NullableLaws.

Import Nullable.

(** X16. [map] and [bind] obey the functor and monad laws on their results, with
    [value] as the unit; [map] is [bind] through [value]. *)
Theorem Nullable_map_bind_laws {A B C} (f : A → B) (g : B → C)
    (k1 : A → t B) (k2 : B → t C) (a : A) (n : t A) :
  Calls.result (map (λ x, x) n) = n
  ∧ Calls.result (map (λ x, g (f x)) n)
    = Calls.result (map g (Calls.result (map f n)))
  ∧ Calls.result (bind k1 (value a)) = k1 a
  ∧ Calls.result (bind value n) = n
  ∧ Calls.result (bind k2 (Calls.result (bind k1 n)))
    = Calls.result (bind (λ x, Calls.result (bind k2 (k1 x))) n)
  ∧ Calls.result (map f n) = Calls.result (bind (λ x, value (f x)) n)
  ∧ flatMap k1 n = bind k1 n.
Proof.
  split; [by destruct n|]. split; [by destruct n|]. split; [done|].
  split; [by destruct n|]. split; [by destruct n|]. split; [by destruct n|].
  done.
Qed.

(** X17. A present value reaches the callback of [map], [bind] and [iter] exactly
    once and the thunk of [defaultWith] not at all; a nullish one reaches no
    callback and makes [defaultWith] call its thunk exactly once.
    [defaultWith] with a constant thunk is [defaultValue], and a default
    after [map] is the image of the value, or else the default. *)
Theorem Nullable_callbacks {A B} (f : A → B) (k : A → t B) (e : A → unit)
    (th : unit → A) (d : A) (dB : B) (n : t A) :
  (∀ a, n = value a →
     Calls.log (map f n) = [a] ∧ Calls.log (bind k n) = [a]
     ∧ Calls.log (iter e n) = [a] ∧ Calls.log (defaultWith th n) = []
     ∧ Calls.result (defaultWith th n) = a
     ∧ defaultValue dB (Calls.result (map f n)) = f a)
  ∧ (isNullish n = true →
     Calls.log (iter e n) = []
     ∧ Calls.log (defaultWith th n) = [tt]
     ∧ Calls.result (defaultWith th n) = th tt
     ∧ defaultValue d n = d
     ∧ defaultValue dB (Calls.result (map f n)) = dB)
  ∧ Calls.result (defaultWith (λ _, d) n) = defaultValue d n.
Proof.
  split; [|split].
  - by intros a ->.
  - by destruct n.
  - by destruct n.
Qed.

Lemma Nullable_callbacks_witness :
  Calls.log (iter (λ _ : Z, tt) (value 32)) = [32]
  ∧ Calls.log (defaultWith (λ _, 42) null) = [tt]
  ∧ defaultValue 0 (Calls.result (map Z.succ undefined)) = 0.
Proof.
  split; [|split].
  - destruct (Nullable_callbacks Z.succ value (λ _ : Z, tt) (λ _, 42) 0 0
                (value 32)) as (Hvalue & _ & _).
    by destruct (Hvalue 32 eq_refl) as (_ & _ & Hiter & _).
  - destruct (Nullable_callbacks Z.succ value (λ _ : Z, tt) (λ _, 42) 0 0
                null) as (_ & Hnull & _).
    by destruct (Hnull eq_refl) as (_ & Hlog & _).
  - destruct (Nullable_callbacks Z.succ value (λ _ : Z, tt) (λ _, 42) 0 0
                undefined) as (_ & Hnull & _).
    by destruct (Hnull eq_refl) as (_ & _ & _ & _ & Hdef).
Defined.

End NullableLaws.

(** ** Deferred: the matchers and the state predicates *)

Section DeferredFacts.

Import Deferred.

(** X18. A partial matcher that has all three cases matches like the
    exhaustive matcher of these cases, whatever its [orElse], in every state
    whose case is a function or a constant that is neither [null] nor
    [undefined].  Where the case is a [null] or [undefined] constant the two
    differ: [match] returns that constant, [matchOrElse] its [orElse]. *)
Theorem matchOrElse_all_cases_is_match {A R} `{JS.Nullish R}
    (m : Exhaustive.DeferredMatcher A R) (other : FuncOrValue unit R)
    (d : t A) :
  ((∀ v, caseConstant m d = Some v → JS.isNullish v = false) →
   matchOrElse {| notStarted := Some (Exhaustive.notStarted m);
                  inProgress := Some (Exhaustive.inProgress m);
                  resolved := Some (Exhaustive.resolved m);
                  orElse := other |} d
   = match_ m d)
  ∧ (∀ v, caseConstant m d = Some v → JS.isNullish v = true →
       matchOrElse {| notStarted := Some (Exhaustive.notStarted m);
                      inProgress := Some (Exhaustive.inProgress m);
                      resolved := Some (Exhaustive.resolved m);
                      orElse := other |} d
       = resultOrValue other tt
       ∧ match_ m d = v).
Proof.
  split.
  - intros Hv. destruct d as [| |a]; simpl in *.
    + destruct (Exhaustive.notStarted m) as [f|v]; simpl; [done|].
      by rewrite (Hv v eq_refl).
    + destruct (Exhaustive.inProgress m) as [f|v]; simpl; [done|].
      by rewrite (Hv v eq_refl).
    + destruct (Exhaustive.resolved m) as [f|v]; simpl; [done|].
      by rewrite (Hv v eq_refl).
  - intros v Hc Hv. destruct d as [| |a]; simpl in *.
    + destruct (Exhaustive.notStarted m) as [f|v']; simpl; [done|].
      injection Hc as ->. by rewrite Hv.
    + destruct (Exhaustive.inProgress m) as [f|v']; simpl; [done|].
      injection Hc as ->. by rewrite Hv.
    + destruct (Exhaustive.resolved m) as [f|v']; simpl; [done|].
      injection Hc as ->. by rewrite Hv.
Qed.

Lemma matchOrElse_all_cases_is_match_witness :
  matchOrElse {| notStarted := Some (Value 1);
                 inProgress := Some (Value 2);
                 resolved := Some (Func (λ z : Z, z + 3));
                 orElse := Value 0 |} InProgress = 2
  ∧ matchOrElse {| notStarted := Some (Value Nullable.null);
                   inProgress := Some (Value (Nullable.value 2));
                   resolved := Some (Func (λ z : Z, Nullable.value z));
                   orElse := Value (Nullable.value 0) |} NotStarted
    = Nullable.value 0.
Proof.
  split.
  - destruct (matchOrElse_all_cases_is_match
                {| Exhaustive.notStarted := Value 1;
                   Exhaustive.inProgress := Value 2;
                   Exhaustive.resolved := Func (λ z : Z, z + 3) |}
                (Value 0) InProgress) as [Hsame _].
    refine (eq_trans (Hsame _) _); [intros v _; reflexivity | reflexivity].
  - destruct (matchOrElse_all_cases_is_match
                {| Exhaustive.notStarted := Value Nullable.null;
                   Exhaustive.inProgress := Value (Nullable.value 2);
                   Exhaustive.resolved := Func (λ z : Z, Nullable.value z) |}
                (Value (Nullable.value 0)) NotStarted) as [_ Hnull].
    destruct (Hnull Nullable.null eq_refl eq_refl) as [Hm _]. exact Hm.
Defined.

(** X19. A partial matcher falls back to [orElse] exactly in the states whose
    case it lacks: with no case at all it is constant. *)
Theorem matchOrElse_orElse {A R} `{JS.Nullish R}
    (m : PartialDeferredMatcher A R) (d : t A) :
  (d = NotStarted → notStarted m = None →
   matchOrElse m d = resultOrValue (orElse m) tt)
  ∧ (d = InProgress → inProgress m = None →
     matchOrElse m d = resultOrValue (orElse m) tt)
  ∧ (∀ a, d = Resolved a → resolved m = None →
          matchOrElse m d = resultOrValue (orElse m) tt)
  ∧ (notStarted m = None → inProgress m = None → resolved m = None →
     matchOrElse m d = resultOrValue (orElse m) tt).
Proof.
  split; [|split; [|split]].
  - intros -> Hc. simpl. by rewrite Hc.
  - intros -> Hc. simpl. by rewrite Hc.
  - intros a -> Hc. simpl. by rewrite Hc.
  - intros H1 H2 H3. destruct d; simpl; by rewrite ?H1, ?H2, ?H3.
Qed.

Lemma matchOrElse_orElse_witness :
  matchOrElse {| notStarted := None; inProgress := None;
                 resolved := Some (Func (λ z : Z, z + 1));
                 orElse := Value 0 |} InProgress = 0.
Proof.
  destruct (matchOrElse_orElse
              {| notStarted := None; inProgress := None;
                 resolved := Some (Func (λ z : Z, z + 1));
                 orElse := Value 0 |} InProgress) as (_ & Hin & _).
  by apply Hin.
Defined.

(** X20. The three states and their predicates: unresolved is the negation of
    resolved, in progress implies unresolved, and each predicate holds in
    exactly the states of its name. *)
Theorem Deferred_state_predicates {A} (d : t A) :
  isUnresolved d = negb (isResolved d)
  ∧ (isInProgress d = true → isUnresolved d = true)
  ∧ (isResolved d = true ↔ ∃ a, d = Resolved a)
  ∧ (isInProgress d = true ↔ d = InProgress)
  ∧ (isUnresolved d = true ↔ d = NotStarted ∨ d = InProgress).
Proof.
  destruct d as [| |a]; simpl.
  - split; [done|]. split; [done|]. split; [split; [done|by intros [? ?]]|].
    split; [done|]. split; [by left|done].
  - split; [done|]. split; [done|]. split; [split; [done|by intros [? ?]]|].
    split; [done|]. split; [by right|done].
  - split; [done|]. split; [done|]. split; [split; [by exists a|done]|].
    split; [done|]. split; [done|by intros [?|?]].
Qed.

(** X21. [isResolvedWith] holds exactly of a resolved value that the comparer,
    given or defaulted, equates with the expected one (called with the
    actual value first); so it implies [isResolved] and fails on every
    unresolved state. *)
Theorem isResolvedWith_iff {A} (Default : EqualityComparer.t A) (e : A)
    (equalityComparer : option (EqualityComparer.t A)) (d : t A) :
  (isResolvedWith Default e equalityComparer d = true
   ↔ ∃ actual, d = Resolved actual
       ∧ EqualityComparer.equals (default Default equalityComparer)
           actual e = true)
  ∧ (isResolvedWith Default e equalityComparer d = true →
     isResolved d = true)
  ∧ (isUnresolved d = true →
     isResolvedWith Default e equalityComparer d = false).
Proof.
  rewrite isResolvedWith_cases. destruct d as [| |a]; simpl.
  - split; [split; [done|by intros (? & ? & _)]|done].
  - split; [split; [done|by intros (? & ? & _)]|done].
  - split; [|done]. split.
    + intros H. by exists a.
    + by intros (? & [= <-] & ?).
Qed.

Lemma isResolvedWith_iff_witness :
  isResolvedWith Fixtures.EqNumber 100 None (Resolved 101) = false
  ∧ isResolved (Resolved 100) = true.
Proof.
  split.
  - destruct (isResolvedWith_iff Fixtures.EqNumber 100 None (Resolved 101))
      as ([Hif _] & _ & _).
    destruct (isResolvedWith Fixtures.EqNumber 100 None (Resolved 101)) eqn:E;
      [|reflexivity].
    destruct (Hif eq_refl) as (actual & [= <-] & Heq). discriminate Heq.
  - destruct (isResolvedWith_iff Fixtures.EqNumber 100 None (Resolved 100))
      as (_ & Himp & _).
    apply Himp. reflexivity.
Defined.

End DeferredFacts.
